(** * Gluify: a shallow embedding of the pipeline builder and its executors

    Source: [Gluify.ts] (class [Gluify] and the helper [gluify]).
    The executors [run] and [runAsync] walk the stored operation list with a
    mutable [(result, error)] pair; [error] is tested by JavaScript
    truthiness ([if (error)]), which the embedding keeps. *)

From Stdlib Require Import String.
From Stdlib Require Import List ZArith Bool Lia Sorted.
Import ListNotations.
Open Scope list_scope.

Module Gluify.

(** ** JavaScript values *)

(** The values that flow through a pipeline.  Objects, arrays, [Error]
    instances and functions are references ([VRef]); a settled native
    [Promise] is [VPromise fulfilled v] (fulfilled with [v] when
    [fulfilled = true], rejected with reason [v] otherwise).  Numbers are
    modelled by integers. *)
Inductive value : Type :=
| VUndef
| VNull
| VBool (b : bool)
| VNum (n : Z)
| VStr (s : String.string)
| VRef (l : nat)
| VPromise (fulfilled : bool) (v : value).

(** The result of calling a function: it returns a value or throws one. *)
Inductive outcome : Type :=
| Ok (v : value)
| Throw (e : value).

(** JavaScript truthiness, as used by [if (error)] and by [when]. *)
Definition truthy (v : value) : bool :=
  match v with
  | VUndef | VNull => false
  | VBool b => b
  | VNum n => negb (Z.eqb n 0)
  | VStr s => negb (String.eqb s String.EmptyString)
  | VRef _ | VPromise _ _ => true
  end.

(** [value instanceof Promise] *)
Definition isPromise (v : value) : bool :=
  match v with VPromise _ _ => true | _ => false end.

(** [await v]: a promise is unwrapped (a fulfilled promise adopts the state
    of what it was resolved with); a rejected one throws its reason; any
    other value is returned as it is. *)
Fixpoint await_val (v : value) : outcome :=
  match v with
  | VPromise true w => await_val w
  | VPromise false e => Throw e
  | _ => Ok v
  end.

(** [await f(...)] where the call itself may throw synchronously. *)
Definition await_out (o : outcome) : outcome :=
  match o with
  | Ok v => await_val v
  | Throw e => Throw e
  end.

(** ** Operations and pipelines *)

(** An [Operation] is a function of one value; an [ErrorHandlerOperation]
    additionally carries [__isErrorHandler = true] and its [__handler],
    modelled here by [errorHandler = Some handler]. *)
Record operation : Type := mkOperation {
  op : value -> outcome;
  errorHandler : option (value -> outcome)
}.

(** [isErrorHandler(op)]: [op.__isErrorHandler === true]. *)
Definition isErrorHandler (o : operation) : bool :=
  match errorHandler o with Some _ => true | None => false end.

(** The fields of a [Gluify] instance. *)
Record pipeline : Type := mkGluify {
  initialValue : value;
  operations : list operation;
  isLazy : bool;
  lazyInitializer : option (unit -> outcome)
}.

(** [createNext(newOperations)] *)
Definition createNext (p : pipeline) (newOperations : list operation) : pipeline :=
  mkGluify (initialValue p) newOperations (isLazy p) (lazyInitializer p).

(** [gluify(fn, ...args)]: the producer, with its arguments bound, is
    stored as [lazyInitializer]; [initialValue] is [undefined]. *)
Definition gluify (fn : unit -> outcome) : pipeline :=
  mkGluify VUndef [] true (Some fn).

(** [pipe(fn, ...args)] (the extra arguments are bound into [fn]). *)
Definition pipe_operation (fn : value -> outcome) : operation :=
  mkOperation (fun v => fn v) None.

Definition pipe (p : pipeline) (fn : value -> outcome) : pipeline :=
  createNext p (operations p ++ [pipe_operation fn]).

(** [pipeAsync(fn, ...args)]: the stored operation is an [async] function,
    so calling it always returns a promise: rejected if awaiting the input
    or calling [fn] throws, otherwise resolved with [fn]'s result. *)
Definition pipeAsync_operation (fn : value -> outcome) : operation :=
  mkOperation
    (fun v =>
       Ok (match (if isPromise v then await_val v else Ok v) with
           | Throw e => VPromise false e
           | Ok resolvedValue =>
               match fn resolvedValue with
               | Ok r => VPromise true r
               | Throw e => VPromise false e
               end
           end))
    None.

Definition pipeAsync (p : pipeline) (fn : value -> outcome) : pipeline :=
  createNext p (operations p ++ [pipeAsync_operation fn]).

(** [tap(fn)]: call [fn], then return the unchanged value. *)
Definition tap_operation (fn : value -> outcome) : operation :=
  mkOperation
    (fun v => match fn v with Ok _ => Ok v | Throw e => Throw e end)
    None.

Definition tap (p : pipeline) (fn : value -> outcome) : pipeline :=
  createNext p (operations p ++ [tap_operation fn]).

(** [catch(handler)]: a passthrough marker operation carrying the handler. *)
Definition catch_operation (handler : value -> outcome) : operation :=
  mkOperation (fun v => Ok v) (Some handler).

Definition catch (p : pipeline) (handler : value -> outcome) : pipeline :=
  createNext p (operations p ++ [catch_operation handler]).

(** [recover(fallbackValue)] is [catch(() => fallbackValue)]. *)
Definition recover (p : pipeline) (fallbackValue : value) : pipeline :=
  catch p (fun _ => Ok fallbackValue).

(** [when(predicate, fn)] *)
Definition when_operation (predicate fn : value -> outcome) : operation :=
  mkOperation
    (fun v =>
       match predicate v with
       | Throw e => Throw e
       | Ok b => if truthy b then fn v else Ok v
       end)
    None.

Definition when (p : pipeline) (predicate fn : value -> outcome) : pipeline :=
  createNext p (operations p ++ [when_operation predicate fn]).

(** The convenience catalog ([map], [filter], [reduce], [find], [some],
    [every], [take], [skip], [sort], [reverse], [flat], [unique], [pick],
    [omit], [keys], [values], [entries], [merge], [trim], [split], [join],
    [replace], [toUpperCase], [toLowerCase], [defaultTo], [isNil],
    [clone]): each stores one plain operation wrapping a native JavaScript
    operation, given here as [native]. *)
Definition convenience (p : pipeline) (native : value -> outcome) : pipeline :=
  createNext p (operations p ++ [mkOperation native None]).

(** ** The executors *)

(** One call made by an executor to a caller-supplied function, with the
    (settled) outcome of that call; step positions count from 0. *)
Inductive event : Type :=
| EvSeed (r : outcome)
| EvOp (k : nat) (r : outcome)
| EvHandler (k : nat) (err : value) (r : outcome).

(** The local variables [result] and [error] of an execution, with the
    calls made so far. *)
Record state : Type := mkState {
  result : value;
  error : value;
  trace : list event
}.

Section Executor.

(** [settle] is what an executor does with the value a call returns:
    nothing in [run], [await] in [runAsync]; the two method bodies are
    otherwise the same. *)
Variable settle : outcome -> outcome.

(** One iteration of [for (const op of this.operations)]. *)
Definition exec_step (k : nat) (o : operation) (s : state) : state :=
  if truthy (error s) then
    match errorHandler o with
    | Some h =>
        let r := settle (h (error s)) in
        let tr := trace s ++ [EvHandler k (error s) r] in
        match r with
        | Ok v => mkState v VNull tr
        | Throw e => mkState (result s) e tr
        end
    | None => s
    end
  else
    match errorHandler o with
    | Some _ => s
    | None =>
        let r := settle (op o (result s)) in
        let tr := trace s ++ [EvOp k r] in
        match r with
        | Ok v => mkState v (error s) tr
        | Throw e => mkState (result s) e tr
        end
    end.

Fixpoint exec_ops (k : nat) (ops : list operation) (s : state) : state :=
  match ops with
  | [] => s
  | o :: ops' => exec_ops (S k) ops' (exec_step k o s)
  end.

(** The [try] block that obtains the starting value. *)
Definition exec_init (p : pipeline) : state :=
  match isLazy p, lazyInitializer p with
  | true, Some f =>
      let r := settle (f tt) in
      match r with
      | Ok v => mkState v VNull [EvSeed r]
      | Throw e => mkState VUndef e [EvSeed r]
      end
  | _, _ => mkState (initialValue p) VNull []
  end.

(** The final [if (error) throw error; return result].  In the [async]
    method [runAsync], [return result] resolves the returned promise with
    [result], which adopts the state of a promise: that is [settle] again
    ([await_out (Ok result)]); in [run] the value is returned as it is. *)
Definition finish (s : state) : outcome :=
  if truthy (error s) then Throw (error s) else settle (Ok (result s)).

Definition final_state (p : pipeline) : state :=
  exec_ops 0 (operations p) (exec_init p).

Definition execute (p : pipeline) : outcome * list event :=
  let s := final_state p in (finish s, trace s).

End Executor.

(** [run()] *)
Definition run (p : pipeline) : outcome * list event :=
  execute (fun r => r) p.

(** [runAsync()]: the settled result of the returned promise. *)
Definition runAsync (p : pipeline) : outcome * list event :=
  execute await_out p.

(** ** Chains of builder calls *)

(** [p.pipe(f1).pipe(f2)...pipe(fn)] *)
Fixpoint pipes (p : pipeline) (fs : list (value -> outcome)) : pipeline :=
  match fs with
  | [] => p
  | f :: fs' => pipes (pipe p f) fs'
  end.

(** The direct composition [fn(...f2(f1(v)))] of the spec (P3), stopping at
    the first function that throws. *)
Fixpoint compose_all (fs : list (value -> outcome)) (v : value) : outcome :=
  match fs with
  | [] => Ok v
  | f :: fs' =>
      match f v with
      | Ok w => compose_all fs' w
      | Throw e => Throw e
      end
  end.

(** A builder call, with the caller-supplied functions it receives. *)
Inductive builder : Type :=
| BPipe (fn : value -> outcome)
| BPipeAsync (fn : value -> outcome)
| BTap (fn : value -> outcome)
| BCatch (handler : value -> outcome)
| BRecover (fallbackValue : value)
| BWhen (predicate fn : value -> outcome)
| BConvenience (native : value -> outcome).

Definition build (p : pipeline) (b : builder) : pipeline :=
  match b with
  | BPipe fn => pipe p fn
  | BPipeAsync fn => pipeAsync p fn
  | BTap fn => tap p fn
  | BCatch handler => catch p handler
  | BRecover fallbackValue => recover p fallbackValue
  | BWhen predicate fn => when p predicate fn
  | BConvenience native => convenience p native
  end.

(** The operation each builder call stores. *)
Definition builder_operation (b : builder) : operation :=
  match b with
  | BPipe fn => pipe_operation fn
  | BPipeAsync fn => pipeAsync_operation fn
  | BTap fn => tap_operation fn
  | BCatch handler => catch_operation handler
  | BRecover fallbackValue => catch_operation (fun _ => Ok fallbackValue)
  | BWhen predicate fn => when_operation predicate fn
  | BConvenience native => mkOperation native None
  end.

Fixpoint builds (p : pipeline) (bs : list builder) : pipeline :=
  match bs with
  | [] => p
  | b :: bs' => builds (build p b) bs'
  end.

(** ** Gluify objects and their operations arrays in the store

    The constructor keeps a reference to the array it is given
    ([this.operations = operations]) without copying it, so two objects may
    share one array.  The store holds the objects and the operations arrays
    by address, and the log of the calls made to caller-supplied functions
    (the producer, the steps' functions and the handlers). *)
Record gobj : Type := mkGobj {
  g_initialValue : value;
  g_operations : nat;
  g_isLazy : bool;
  g_lazyInitializer : option (unit -> outcome) }.

Record gstore : Type := mkGstore {
  op_arrays : nat -> option (list operation);
  objects : nat -> option gobj;
  next_array : nat;
  next_object : nat;
  calls : list event }.

(** Nothing is stored at or beyond the next free addresses. *)
Definition gstore_wf (st : gstore) : Prop :=
  (forall a, next_array st <= a -> op_arrays st a = None) /\
  (forall n, next_object st <= n -> objects st n = None).

Definition empty_gstore : gstore := mkGstore (fun _ => None) (fun _ => None) 0 0 [].

(** An array literal ([[]] or [[...this.operations, operation]]) allocates
    a new array. *)
Definition new_array (st : gstore) (xs : list operation) : gstore * nat :=
  (mkGstore (fun a => if Nat.eqb a (next_array st) then Some xs else op_arrays st a)
            (objects st) (S (next_array st)) (next_object st) (calls st),
   next_array st).

(** [new Gluify(initialValue, operations, isLazy, lazyInitializer)], given
    the address [a] of the operations array. *)
Definition new_Gluify (st : gstore) (iv : value) (a : nat) (lz : bool)
    (li : option (unit -> outcome)) : gstore * nat :=
  (mkGstore (op_arrays st)
            (fun n => if Nat.eqb n (next_object st) then Some (mkGobj iv a lz li)
                      else objects st n)
            (next_array st) (S (next_object st)) (calls st),
   next_object st).

(** [this.createNext(newOperations)]. *)
Definition createNext_st (st : gstore) (this : gobj) (a : nat) : gstore * nat :=
  new_Gluify st (g_initialValue this) a (g_isLazy this) (g_lazyInitializer this).

(** [this.createNext([...this.operations, operation])], the body shared by
    every builder method ([recover] through [catch], the conveniences
    through [pipe]); reading a missing object or array is a [TypeError]
    ([None]). *)
Definition append_st (st : gstore) (this : nat) (o : operation) : option (gstore * nat) :=
  match objects st this with
  | None => None
  | Some g =>
      match op_arrays st (g_operations g) with
      | None => None
      | Some xs =>
          let (st1, a) := new_array st (xs ++ [o]) in
          Some (createNext_st st1 g a)
      end
  end.

Definition build_st (st : gstore) (this : nat) (b : builder) : option (gstore * nat) :=
  append_st st this (builder_operation b).

(** [gluify(fn)]: [new Gluify(undefined, [], true, lazyInitializer)]. *)
Definition gluify_st (st : gstore) (fn : unit -> outcome) : gstore * nat :=
  let (st1, a) := new_array st [] in new_Gluify st1 VUndef a true (Some fn).

(** A chain of builder calls, each on the object the previous one returned. *)
Fixpoint builds_st (st : gstore) (this : nat) (bs : list builder) : option (gstore * nat) :=
  match bs with
  | [] => Some (st, this)
  | b :: bs' =>
      match build_st st this b with
      | None => None
      | Some (st1, n) => builds_st st1 n bs'
      end
  end.

(** The pipeline an object describes, read through its array reference. *)
Definition pipeline_of (st : gstore) (this : nat) : option pipeline :=
  match objects st this with
  | None => None
  | Some g =>
      option_map (fun xs => mkGluify (g_initialValue g) xs (g_isLazy g) (g_lazyInitializer g))
                 (op_arrays st (g_operations g))
  end.

(** [obj.run()]: the calls it makes are appended to the log. *)
Definition run_st (st : gstore) (this : nat) : option (gstore * outcome) :=
  match pipeline_of st this with
  | None => None
  | Some p =>
      let (r, tr) := run p in
      Some (mkGstore (op_arrays st) (objects st) (next_array st) (next_object st)
                     (calls st ++ tr), r)
  end.

(** ** Observations on executions *)

(** Position of a call in step order: the seed first, then step [k] at
    [S k]. *)
Definition ev_pos (ev : event) : nat :=
  match ev with
  | EvSeed _ => 0
  | EvOp k _ | EvHandler k _ _ => S k
  end.

Definition ev_outcome (ev : event) : outcome :=
  match ev with
  | EvSeed r | EvOp _ r | EvHandler _ _ r => r
  end.

(** The outcome of the last call of a trace. *)
Definition last_outcome (tr : list event) : option outcome :=
  match rev tr with
  | ev :: _ => Some (ev_outcome ev)
  | [] => None
  end.

Definition is_handler_event (ev : event) : bool :=
  match ev with EvHandler _ _ _ => true | _ => false end.

(** [error] is falsy before every step and at the end of the walk. *)
Fixpoint clear_along (settle : outcome -> outcome) (k : nat)
    (ops : list operation) (s : state) : bool :=
  negb (truthy (error s)) &&
  match ops with
  | [] => true
  | o :: ops' => clear_along settle (S k) ops' (exec_step settle k o s)
  end.

Definition never_enters_error (settle : outcome -> outcome) (p : pipeline) : bool :=
  clear_along settle 0 (operations p) (exec_init settle p).

(** The same pipeline with every [catch] / [recover] step removed. *)
Definition without_handlers (p : pipeline) : pipeline :=
  createNext p (filter (fun o => negb (isErrorHandler o)) (operations p)).

(** An eager pipeline seeded with [v]: [new Gluify(v, ops)]. *)
Definition seeded (v : value) (ops : list operation) : pipeline :=
  mkGluify v ops false None.


(** ** Arrays in the store: [sort] and [reverse] *)

(** Arrays are reached through references; [cells] maps an address to the
    array's elements and [next] is the next unused address. *)
Record heap : Type := mkHeap {
  cells : nat -> option (list value);
  next : nat
}.

Definition heap_wf (h : heap) : Prop :=
  forall l, next h <= l -> cells h l = None.

(** Allocate a new array holding [xs]. *)
Definition alloc (h : heap) (xs : list value) : nat * heap :=
  (next h,
   mkHeap (fun l => if Nat.eqb l (next h) then Some xs else cells h l)
          (S (next h))).

(** Overwrite the elements of the array at [l] (in-place mutation). *)
Definition write (h : heap) (l : nat) (xs : list value) : heap :=
  mkHeap (fun l' => if Nat.eqb l' l then Some xs else cells h l') (next h).

Section ArrayOps.

(** [Array.prototype.sort] with the step's [compareFn], as the engine
    computes it: the resulting order of the elements, and the value the
    comparator threw, if it threw. *)
Variable sort_elements : list value -> list value * option value.

(** [[...arr]]: a fresh array with the elements of [arr]; arrays only
    ([None] for any other input, which this model does not cover). *)
Definition spread (h : heap) (v : value) : option (nat * heap) :=
  match v with
  | VRef l =>
      match cells h l with
      | Some xs => Some (alloc h xs)
      | None => None
      end
  | _ => None
  end.

(** The operation of [sort(compareFn)]:
    [[...arr].sort(compareFn)], sorting the copy in place. *)
Definition sort_operation (h : heap) (v : value) : option (heap * outcome) :=
  match spread h v with
  | Some (l', h1) =>
      match cells h1 l' with
      | Some ys =>
          let (zs, thrown) := sort_elements ys in
          let h2 := write h1 l' zs in
          match thrown with
          | Some e => Some (h2, Throw e)
          | None => Some (h2, Ok (VRef l'))
          end
      | None => None
      end
  | None => None
  end.

(** The operation of [reverse()]: [[...arr].reverse()], reversing the
    copy in place. *)
Definition reverse_operation (h : heap) (v : value) : option (heap * outcome) :=
  match spread h v with
  | Some (l', h1) =>
      match cells h1 l' with
      | Some ys => Some (write h1 l' (rev ys), Ok (VRef l'))
      | None => None
      end
  | None => None
  end.

End ArrayOps.

(** ** General conveniences on single values *)

(** [defaultTo(defaultValue)]: [value ?? defaultValue]. *)
Definition defaultTo_operation (defaultValue : value) : operation :=
  mkOperation
    (fun v => match v with VUndef | VNull => Ok defaultValue | _ => Ok v end)
    None.

Definition defaultTo (p : pipeline) (defaultValue : value) : pipeline :=
  createNext p (operations p ++ [defaultTo_operation defaultValue]).

(** [isNil()]: [value == null]. *)
Definition isNil_operation : operation :=
  mkOperation
    (fun v => Ok (VBool (match v with VUndef | VNull => true | _ => false end)))
    None.

Definition isNil (p : pipeline) : pipeline :=
  createNext p (operations p ++ [isNil_operation]).

(** ** The array conveniences

    Each reads the array the value refers to ([array_of]); [None] stands
    for an input that is not an array of the store, which this model does
    not cover.  Callbacks receive the element and its index (the third
    argument, the array itself, is not modelled) and may throw.  Numeric
    arguments are integers. *)

Definition array_of (h : heap) (v : value) : option (list value) :=
  match v with VRef l => cells h l | _ => None end.

(** Return a new array holding [ys]. *)
Definition return_new_array (h : heap) (ys : list value) : heap * outcome :=
  let (l, h1) := alloc h ys in (h1, Ok (VRef l)).

(** The relative index of [Array.prototype.slice]: a negative index counts
    from the end; the result is clamped to [[0, len]]. *)
Definition relative_index (n : Z) (len : nat) : nat :=
  if (n <? 0)%Z then Z.to_nat (Z.max (Z.of_nat len + n) 0)
  else Z.to_nat (Z.min n (Z.of_nat len)).

(** [arr.slice(k, final)] once both indices are resolved. *)
Definition slice_elements (xs : list value) (k final : nat) : list value :=
  firstn (final - k) (skipn k xs).

(** [take(n)]: [arr.slice(0, n)]. *)
Definition take_operation (n : Z) (h : heap) (v : value) : option (heap * outcome) :=
  match array_of h v with
  | Some xs => Some (return_new_array h (slice_elements xs 0 (relative_index n (length xs))))
  | None => None
  end.

(** [skip(n)]: [arr.slice(n)]. *)
Definition skip_operation (n : Z) (h : heap) (v : value) : option (heap * outcome) :=
  match array_of h v with
  | Some xs =>
      Some (return_new_array h (slice_elements xs (relative_index n (length xs)) (length xs)))
  | None => None
  end.

(** [arr.map(fn)]: the callback results in order, or the first throw. *)
Fixpoint map_elements (fn : value -> nat -> outcome) (i : nat) (xs : list value)
    : list value + value :=
  match xs with
  | [] => inl []
  | x :: xs' =>
      match fn x i with
      | Throw e => inr e
      | Ok y =>
          match map_elements fn (S i) xs' with
          | inl ys => inl (y :: ys)
          | inr e => inr e
          end
      end
  end.

Definition map_operation (fn : value -> nat -> outcome) (h : heap) (v : value)
    : option (heap * outcome) :=
  match array_of h v with
  | Some xs =>
      match map_elements fn 0 xs with
      | inl ys => Some (return_new_array h ys)
      | inr e => Some (h, Throw e)
      end
  | None => None
  end.



(** [arr.some(predicate)]: stops at the first truthy result. *)
Fixpoint some_elements (predicate : value -> nat -> outcome) (i : nat) (xs : list value)
    : outcome :=
  match xs with
  | [] => Ok (VBool false)
  | x :: xs' =>
      match predicate x i with
      | Throw e => Throw e
      | Ok b => if truthy b then Ok (VBool true) else some_elements predicate (S i) xs'
      end
  end.

(** [arr.every(predicate)]: stops at the first falsy result. *)
Fixpoint every_elements (predicate : value -> nat -> outcome) (i : nat) (xs : list value)
    : outcome :=
  match xs with
  | [] => Ok (VBool true)
  | x :: xs' =>
      match predicate x i with
      | Throw e => Throw e
      | Ok b => if truthy b then every_elements predicate (S i) xs' else Ok (VBool false)
      end
  end.

(** [arr.find(predicate)]: the first element with a truthy result, else
    [undefined]. *)
Fixpoint find_elements (predicate : value -> nat -> outcome) (i : nat) (xs : list value)
    : outcome :=
  match xs with
  | [] => Ok VUndef
  | x :: xs' =>
      match predicate x i with
      | Throw e => Throw e
      | Ok b => if truthy b then Ok x else find_elements predicate (S i) xs'
      end
  end.

(** [arr.reduce(fn, initialValue)], from the left. *)
Fixpoint reduce_elements (fn : value -> value -> nat -> outcome) (acc : value) (i : nat)
    (xs : list value) : outcome :=
  match xs with
  | [] => Ok acc
  | x :: xs' =>
      match fn acc x i with
      | Throw e => Throw e
      | Ok acc' => reduce_elements fn acc' (S i) xs'
      end
  end.


(** SameValueZero on the values of the model (references by address). *)
Fixpoint value_eqb (a b : value) : bool :=
  match a, b with
  | VUndef, VUndef | VNull, VNull => true
  | VBool x, VBool y => Bool.eqb x y
  | VNum x, VNum y => Z.eqb x y
  | VStr x, VStr y => String.eqb x y
  | VRef x, VRef y => Nat.eqb x y
  | VPromise f x, VPromise g y => Bool.eqb f g && value_eqb x y
  | _, _ => false
  end.

(** [new Set(arr)] iterated: first occurrences, in order. *)
Fixpoint unique_from (seen xs : list value) : list value :=
  match xs with
  | [] => []
  | x :: xs' =>
      if existsb (value_eqb x) seen then unique_from seen xs'
      else x :: unique_from (x :: seen) xs'
  end.

Definition unique_elements (xs : list value) : list value := unique_from [] xs.

(** [unique()]: [Array.from(new Set(arr))].  Promise objects have an
    identity this model does not keep, so arrays holding promises are left
    out ([None]). *)
Definition unique_operation (h : heap) (v : value) : option (heap * outcome) :=
  match array_of h v with
  | Some xs =>
      if existsb isPromise xs then None
      else Some (return_new_array h (unique_elements xs))
  | None => None
  end.



(** No array that existed before is changed. *)
Definition frame (h h' : heap) : Prop :=
  forall l, l < next h -> cells h' l = cells h l.


(** ** The string conveniences

    A string is a list of code units; this model covers the code units
    below 256 (Latin-1), one [Ascii.ascii] each.  Inputs that are not
    strings, and separators or patterns that are regular expressions, are
    outside the model. *)

Definition code_units (s : String.string) : list Ascii.ascii := list_ascii_of_string s.

(** [WhiteSpace] and [LineTerminator] code units below 256. *)
Definition is_js_whitespace (c : Ascii.ascii) : bool :=
  let n := Ascii.nat_of_ascii c in
  (n =? 9) || (n =? 10) || (n =? 11) || (n =? 12) || (n =? 13) || (n =? 32) || (n =? 160).

Fixpoint trim_start (s : list Ascii.ascii) : list Ascii.ascii :=
  match s with
  | [] => []
  | c :: s' => if is_js_whitespace c then trim_start s' else s
  end.

(** [str.trim()]: whitespace removed from both ends. *)
Definition trim_units (s : list Ascii.ascii) : list Ascii.ascii :=
  rev (trim_start (rev (trim_start s))).

Definition trim_string (s : String.string) : String.string :=
  string_of_list_ascii (trim_units (code_units s)).

(** Does [r] start [s]? *)
Fixpoint starts_with (r s : list Ascii.ascii) : bool :=
  match r, s with
  | [], _ => true
  | a :: r', b :: s' => Ascii.eqb a b && starts_with r' s'
  | _ :: _, [] => false
  end.

(** [StringIndexOf(s, r, 0)]: the first position where [r] occurs. *)
Fixpoint index_of (r s : list Ascii.ascii) : option nat :=
  if starts_with r s then Some 0
  else match s with
       | [] => None
       | _ :: s' => option_map S (index_of r s')
       end.

(** The loop of [String.prototype.split] for a non-empty separator [r]:
    the piece before the next occurrence, then the rest after it.  Every
    round consumes at least one unit, so [length s + 1] rounds suffice. *)
Fixpoint split_loop (fuel : nat) (r t : list Ascii.ascii) : list (list Ascii.ascii) :=
  match fuel with
  | O => [t]
  | S fuel' =>
      match index_of r t with
      | Some k => firstn k t :: split_loop fuel' r (skipn (k + length r) t)
      | None => [t]
      end
  end.

(** [s.split(separator)] for a string separator: the empty separator gives
    the code units, the empty string gives [[""]]. *)
Definition split_units (s r : list Ascii.ascii) : list (list Ascii.ascii) :=
  match r with
  | [] => map (fun c => [c]) s
  | _ :: _ =>
      match s with
      | [] => [[]]
      | _ :: _ => split_loop (S (length s)) r s
      end
  end.

(** [split(separator)]: a new array of the pieces. *)
Definition split_operation (separator : String.string) (h : heap) (v : value)
    : option (heap * outcome) :=
  match v with
  | VStr s =>
      Some (return_new_array h
              (map (fun u => VStr (string_of_list_ascii u))
                   (split_units (code_units s) (code_units separator))))
  | _ => None
  end.

(** The string of an element in [Array.prototype.join]: [undefined] and
    [null] give the empty string; strings themselves.  Other elements go
    through [ToString], outside the model. *)
Definition join_element (v : value) : option (list Ascii.ascii) :=
  match v with
  | VUndef | VNull => Some []
  | VStr s => Some (code_units s)
  | _ => None
  end.

(** The loop of [Array.prototype.join]: the separator between elements. *)
Fixpoint join_units (sep : list Ascii.ascii) (xs : list value) : option (list Ascii.ascii) :=
  match xs with
  | [] => Some []
  | x :: xs' =>
      match join_element x with
      | None => None
      | Some u =>
          match xs' with
          | [] => Some u
          | _ :: _ =>
              match join_units sep xs' with
              | Some t => Some (u ++ sep ++ t)
              | None => None
              end
          end
      end
  end.

(** [join(separator)]: an omitted separator is [","]. *)
Definition join_operation (separator : option String.string) (h : heap) (v : value)
    : option (heap * outcome) :=
  let sep := match separator with Some s => code_units s | None => [Ascii.ascii_of_nat 44] end in
  match array_of h v with
  | Some xs =>
      match join_units sep xs with
      | Some u => Some (h, Ok (VStr (string_of_list_ascii u)))
      | None => None
      end
  | None => None
  end.

(** [Array.prototype.join]'s result on a list of strings. *)
Fixpoint join_list (sep : list Ascii.ascii) (ps : list (list Ascii.ascii)) : list Ascii.ascii :=
  match ps with
  | [] => []
  | [p] => p
  | p :: ps' => p ++ sep ++ join_list sep ps'
  end.

(** [clone()]: a new array with the elements of an array; primitive values
    are returned as they are.  Plain objects, and promises (which the code
    spreads into a new plain object), are outside the model. *)
Definition clone_operation (h : heap) (v : value) : option (heap * outcome) :=
  match v with
  | VRef _ =>
      match spread h v with
      | Some (l, h1) => Some (h1, Ok (VRef l))
      | None => None
      end
  | VPromise _ _ => None
  | _ => Some (h, Ok v)
  end.

(** ** Example functions used by the concrete scenarios *)

(** [x => x * 2] and [x => x + 10] on numbers. *)
Definition times2 (v : value) : outcome :=
  match v with VNum n => Ok (VNum (n * 2)) | _ => Ok VUndef end.

Definition plus10 (v : value) : outcome :=
  match v with VNum n => Ok (VNum (n + 10)) | _ => Ok VUndef end.

(** [Error('e')], [Error('e2')]: two distinct [Error] objects. *)
Definition err_e : value := VRef 100.
Definition err_e2 : value := VRef 101.

(** [x => x instanceof Promise] *)
Definition is_promise_fn (v : value) : outcome := Ok (VBool (isPromise v)).


(** [x => x > 5] on numbers. *)
Definition gt5 (v : value) : outcome :=
  match v with VNum n => Ok (VBool (Z.ltb 5 n)) | _ => Ok (VBool false) end.

(** [(x, i) => x * 2] on numbers, throwing [err_e] on other values. *)
Definition times2_at (x : value) (_ : nat) : outcome :=
  match x with VNum z => Ok (VNum (2 * z)) | _ => Throw err_e end.

(** A store holding one array [[1, 1]] at address 0. *)
Definition heap_1_1 : heap :=
  mkHeap (fun l => match l with 0 => Some [VNum 1; VNum 1] | _ => None end) 1.

(** ** General facts about the walk *)

Section Walk.

Variable settle : outcome -> outcome.

Lemma exec_ops_app (l1 l2 : list operation) (k : nat) (s : state) :
  exec_ops settle k (l1 ++ l2) s =
  exec_ops settle (k + length l1) l2 (exec_ops settle k l1 s).
Proof.
  revert k s; induction l1 as [|o l1 IH]; intros k s; simpl.
  - now rewrite Nat.add_0_r.
  - rewrite IH. f_equal. lia.
Qed.

End Walk.

Lemma pipes_lazy (seed : unit -> outcome) (v0 : value)
    (pre : list operation) (fs : list (value -> outcome)) :
  pipes (mkGluify v0 pre true (Some seed)) fs =
  mkGluify v0 (pre ++ map pipe_operation fs) true (Some seed).
Proof.
  revert pre; induction fs as [|f fs IH]; intros pre; simpl.
  - now rewrite app_nil_r.
  - unfold pipe, createNext; simpl.
    rewrite IH. now rewrite <- app_assoc.
Qed.

Lemma exec_pipes_ok (fs : list (value -> outcome)) :
  forall v w k tr,
  compose_all fs v = Ok w ->
  result (exec_ops (fun r => r) k (map pipe_operation fs) (mkState v VNull tr)) = w /\
  error (exec_ops (fun r => r) k (map pipe_operation fs) (mkState v VNull tr)) = VNull.
Proof.
  induction fs as [|f fs IH]; intros v w k tr H; simpl in *.
  - now inversion H.
  - unfold exec_step; simpl.
    destruct (f v) as [v'|e] eqn:Hf; [|discriminate].
    now apply IH.
Qed.

(** The concrete scenario of the spec:
    [gluify(() => 5).pipe(x => x*2).pipe(x => x+10).run()] is [20]. *)
Example run_5_times2_plus10 :
  fst (run (pipe (pipe (gluify (fun _ => Ok (VNum 5))) times2) plus10)) =
  Ok (VNum 20).
Proof. reflexivity. Qed.

(** C1 (P3, order preservation): when the seed producer returns [v0] and
    the transforms [f1, ..., fn], appended in that order with [pipe], all
    succeed, [run()] returns [fn(...f2(f1(v0)))]. *)
Theorem run_pipes_compose (seed : unit -> outcome) (fs : list (value -> outcome))
    (v0 v : value) :
  seed tt = Ok v0 ->
  compose_all fs v0 = Ok v ->
  fst (run (pipes (gluify seed) fs)) = Ok v.
Proof.
  intros Hseed Hfs.
  unfold gluify; rewrite pipes_lazy; simpl.
  unfold run, execute, final_state, finish, exec_init; simpl.
  rewrite Hseed.
  destruct (exec_pipes_ok fs v0 v 0 [EvSeed (Ok v0)] Hfs) as [Hr He].
  rewrite Hr, He; reflexivity.
Qed.

Lemma run_pipes_compose_witness :
  (fun (_ : unit) => Ok (VNum 5)) tt = Ok (VNum 5) /\
  compose_all [times2; plus10] (VNum 5) = Ok (VNum 20) /\
  fst (run (pipes (gluify (fun _ => Ok (VNum 5))) [times2; plus10])) = Ok (VNum 20).
Proof.
  split; [reflexivity|]. split; [reflexivity|].
  apply (run_pipes_compose (fun _ => Ok (VNum 5)) [times2; plus10] (VNum 5) (VNum 20));
    reflexivity.
Defined.

(** ** Calls happen in step order *)

Definition pos_lt (a b : event) : Prop := ev_pos a < ev_pos b.

Section Order.

Variable settle : outcome -> outcome.

Lemma exec_step_trace (k : nat) (o : operation) (s : state) :
  trace (exec_step settle k o s) = trace s \/
  exists ev, trace (exec_step settle k o s) = trace s ++ [ev] /\ ev_pos ev = S k.
Proof.
  unfold exec_step.
  destruct (truthy (error s)), (errorHandler o) as [h|]; auto.
  - destruct (settle (h (error s))); right; eexists; split; reflexivity.
  - destruct (settle (op o (result s))); right; eexists; split; reflexivity.
Qed.

Lemma exec_ops_trace (ops : list operation) :
  forall k s, exists t,
  trace (exec_ops settle k ops s) = trace s ++ t /\
  StronglySorted pos_lt t /\ Forall (fun ev => S k <= ev_pos ev) t.
Proof.
  induction ops as [|o ops IH]; intros k s; simpl.
  - exists []; rewrite app_nil_r; repeat constructor.
  - destruct (IH (S k) (exec_step settle k o s)) as [t [Ht [Hs Hf]]].
    destruct (exec_step_trace k o s) as [E|[ev [E Hev]]]; rewrite E in Ht.
    + exists t; repeat split; auto.
      refine (Forall_impl _ _ Hf); intros ev Hle; simpl in Hle; lia.
    + exists (ev :: t); rewrite <- app_assoc in Ht; repeat split; auto.
      * constructor; auto.
        refine (Forall_impl _ _ Hf); intros ev' Hle; unfold pos_lt; lia.
      * constructor; [lia|].
        refine (Forall_impl _ _ Hf); intros ev' Hle; lia.
Qed.

Lemma execute_trace_sorted (p : pipeline) :
  StronglySorted pos_lt (snd (execute settle p)).
Proof.
  unfold execute, final_state; simpl.
  destruct (exec_ops_trace (operations p) 0 (exec_init settle p)) as [t [Ht [Hs Hf]]].
  rewrite Ht.
  assert (Hinit : trace (exec_init settle p) = [] \/
                  exists r, trace (exec_init settle p) = [EvSeed r]).
  { unfold exec_init.
    destruct (isLazy p), (lazyInitializer p) as [f|]; simpl; auto.
    destruct (settle (f tt)); right; eexists; reflexivity. }
  destruct Hinit as [E|[r E]]; rewrite E; simpl.
  - exact Hs.
  - constructor; [exact Hs|].
    refine (Forall_impl _ _ Hf); intros ev Hle; unfold pos_lt; simpl; lia.
Qed.

End Order.

Lemma StronglySorted_app_cons {A} (R : A -> A -> Prop) (t1 t2 : list A) (x : A) :
  StronglySorted R (t1 ++ x :: t2) -> Forall (R x) t2.
Proof.
  induction t1 as [|y t1 IH]; simpl; intros H.
  - now inversion H.
  - inversion H; auto.
Qed.

(** A step that throws [Error('fail')] on numbers. *)
Definition fail_on_num (v : value) : outcome :=
  match v with VNum _ => Throw (VRef 102) | _ => Ok v end.

(** The producer [() => 5]. *)
Definition seed5 (_ : unit) : outcome := Ok (VNum 5).

(** A handler that recovers with ['recovered']. *)
Definition recover_str (_ : value) : outcome := Ok (VStr "recovered"%string).

(** C4 (P4, handler reachability): once a call has failed (the seed
    producer, the transform at step [j], or a handler at step [j]), every
    handler invoked afterwards, the only ones the failure can reach, sits
    at a step strictly after the failing one; a handler placed before the
    failing step is never invoked for it.  Stated for both executors
    ([run] is [execute (fun r => r)], [runAsync] is [execute await_out]). *)
Theorem handlers_after_failure (settle : outcome -> outcome) (p : pipeline)
    (t1 t2 : list event) (ev : event) (e : value) :
  snd (execute settle p) = t1 ++ ev :: t2 ->
  ev_outcome ev = Throw e ->
  forall k err r, In (EvHandler k err r) t2 -> ev_pos ev < S k.
Proof.
  intros Htr _ k err r Hin.
  pose proof (execute_trace_sorted settle p) as Hs.
  rewrite Htr in Hs.
  apply StronglySorted_app_cons in Hs.
  rewrite Forall_forall in Hs.
  exact (Hs _ Hin).
Qed.

Lemma handlers_after_failure_witness :
  snd (run (catch (pipe (catch (gluify seed5) recover_str) fail_on_num) recover_str)) =
    [EvSeed (Ok (VNum 5))] ++ EvOp 1 (Throw (VRef 102)) ::
      [EvHandler 2 (VRef 102) (Ok (VStr "recovered"%string))] /\
  1 + 1 < S 2.
Proof.
  split; [reflexivity|].
  apply (handlers_after_failure (fun r => r)
           (catch (pipe (catch (gluify seed5) recover_str) fail_on_num) recover_str)
           [EvSeed (Ok (VNum 5))]
           [EvHandler 2 (VRef 102) (Ok (VStr "recovered"%string))]
           (EvOp 1 (Throw (VRef 102))) (VRef 102) eq_refl eq_refl
           2 (VRef 102) (Ok (VStr "recovered"%string))).
  left; reflexivity.
Defined.

(** The scenario of the spec: [gluify(() => { throw Error('e') })
    .catch(() => { throw Error('e2') }).catch(() => 'final').run()] is
    ['final'], both handlers having been invoked. *)
Example run_two_handlers_error_objects :
  run (catch (catch (gluify (fun _ => Throw err_e)) (fun _ => Throw err_e2))
             (fun _ => Ok (VStr "final"%string))) =
  (Ok (VStr "final"%string),
   [EvSeed (Throw err_e); EvHandler 0 err_e (Throw err_e2);
    EvHandler 1 err_e2 (Ok (VStr "final"%string))]).
Proof. reflexivity. Qed.

(** C2, at a handler that throws [0]: the stored error becomes [0], which
    [if (error)] reads as no error; the second handler is skipped and
    [run()] returns [undefined]. *)
Theorem run_handler_throwing_zero :
  run (catch (catch (gluify (fun _ => Throw err_e)) (fun _ => Throw (VNum 0)))
             (fun _ => Ok (VStr "final"%string))) =
  (Ok VUndef, [EvSeed (Throw err_e); EvHandler 0 err_e (Throw (VNum 0))]).
Proof. reflexivity. Qed.

(** The scenario of the spec: [gluify(() => { throw Error('e') })
    .catch(() => 'fallback').run()] is ['fallback']. *)
Example run_seed_error_fallback :
  fst (run (catch (gluify (fun _ => Throw err_e))
                  (fun _ => Ok (VStr "fallback"%string)))) =
  Ok (VStr "fallback"%string).
Proof. reflexivity. Qed.

(** C7, at a producer that throws [undefined]: the [catch] block stores
    [undefined] as the error, [if (error)] reads it as no error, the
    handler is never invoked and [run()] returns [undefined]. *)
Theorem run_seed_throwing_undefined :
  run (catch (gluify (fun _ => Throw VUndef)) (fun _ => Ok (VStr "fallback"%string))) =
  (Ok VUndef, [EvSeed (Throw VUndef)]).
Proof. reflexivity. Qed.

(** ** Only [(result, error)] decides how the rest of a walk goes *)

Ltac split_matches :=
  repeat match goal with
         | |- context [match ?x with _ => _ end] => destruct x
         end; simpl; auto.

Section Strip.

Variable settle : outcome -> outcome.

Lemma exec_step_strip (k k' : nat) (o : operation) (s s' : state) :
  result s = result s' -> error s = error s' ->
  result (exec_step settle k o s) = result (exec_step settle k' o s') /\
  error (exec_step settle k o s) = error (exec_step settle k' o s').
Proof.
  destruct s as [r e t], s' as [r' e' t']; simpl; intros -> ->.
  unfold exec_step; simpl; split_matches.
Qed.

Lemma exec_ops_strip (ops : list operation) :
  forall k k' s s',
  result s = result s' -> error s = error s' ->
  result (exec_ops settle k ops s) = result (exec_ops settle k' ops s') /\
  error (exec_ops settle k ops s) = error (exec_ops settle k' ops s').
Proof.
  induction ops as [|o ops IH]; intros k k' s s' Hr He; simpl; auto.
  destruct (exec_step_strip k k' o s s' Hr He) as [Hr' He'].
  now apply IH.
Qed.

End Strip.

(** C3, at a step that throws [0]: the failure [0] is stored in [error],
    but [if (error)] reads it as no error, so the next step runs on the
    value as if no failure had happened, and [run()] returns [10] instead of
    raising [0]. *)
Theorem run_step_throwing_zero :
  run (pipe (pipe (gluify seed5) (fun _ => Throw (VNum 0))) times2) =
  (Ok (VNum 10), [EvSeed (Ok (VNum 5)); EvOp 0 (Throw (VNum 0)); EvOp 1 (Ok (VNum 10))]).
Proof. reflexivity. Qed.

(** ** Handlers are inert when no error is pending *)

Section NoError.

Variable settle : outcome -> outcome.

Definition keep_step (o : operation) : bool := negb (isErrorHandler o).

Lemma clear_along_without_handlers (ops : list operation) :
  forall k k' s s',
  clear_along settle k ops s = true ->
  result s = result s' -> error s = error s' ->
  result (exec_ops settle k ops s) =
    result (exec_ops settle k' (filter keep_step ops) s') /\
  error (exec_ops settle k ops s) =
    error (exec_ops settle k' (filter keep_step ops) s').
Proof.
  induction ops as [|o ops IH]; intros k k' s s' Hc Hr He; [simpl; auto|].
  cbn [clear_along] in Hc.
  apply andb_prop in Hc as [Hn Hc].
  apply negb_true_iff in Hn.
  cbn [filter exec_ops].
  destruct (errorHandler o) as [h|] eqn:Eh.
  - assert (Hk : keep_step o = false)
      by (unfold keep_step, isErrorHandler; now rewrite Eh).
    assert (Hs : exec_step settle k o s = s)
      by (unfold exec_step; rewrite Hn, Eh; reflexivity).
    rewrite Hk; rewrite Hs in *; now apply IH.
  - assert (Hk : keep_step o = true)
      by (unfold keep_step, isErrorHandler; now rewrite Eh).
    rewrite Hk; cbn [exec_ops].
    destruct (exec_step_strip settle k k' o s s' Hr He) as [Hr' He'].
    now apply IH.
Qed.

Lemma clear_along_no_handler_calls (ops : list operation) :
  forall k s,
  clear_along settle k ops s = true ->
  exists t, trace (exec_ops settle k ops s) = trace s ++ t /\
            forall ev, In ev t -> is_handler_event ev = false.
Proof.
  induction ops as [|o ops IH]; intros k s Hc; simpl in *.
  - exists []; rewrite app_nil_r; split; [reflexivity | intros ev []].
  - apply andb_prop in Hc as [Hn Hc].
    apply negb_true_iff in Hn.
    destruct (IH (S k) _ Hc) as [t [Ht Hno]].
    unfold exec_step in Ht at 2; rewrite Hn in Ht.
    destruct (errorHandler o) as [h|].
    + exists t; auto.
    + destruct (settle (op o (result s))) as [v|e]; simpl in Ht;
        [exists (EvOp k (Ok v) :: t) | exists (EvOp k (Throw e) :: t)];
        rewrite Ht, <- app_assoc; split; auto;
        intros ev [<-|Hin]; auto.
Qed.

End NoError.

(** C5 (P6, passthrough on no-error): when the error is never set during
    an execution, no handler is invoked, and the result is the result of
    the same pipeline with every [catch]/[recover] step removed.  For both
    executors. *)
Theorem handlers_inert_without_error (settle : outcome -> outcome) (p : pipeline) :
  never_enters_error settle p = true ->
  (forall ev, In ev (snd (execute settle p)) -> is_handler_event ev = false) /\
  fst (execute settle p) = fst (execute settle (without_handlers p)).
Proof.
  unfold never_enters_error; intros Hc; split.
  - destruct (clear_along_no_handler_calls settle _ _ _ Hc) as [t [Ht Hno]].
    unfold execute, final_state; simpl; rewrite Ht.
    intros ev Hin; apply in_app_or in Hin as [Hin|Hin]; auto.
    revert Hin; unfold exec_init.
    destruct (isLazy p), (lazyInitializer p) as [f|]; simpl; try tauto.
    destruct (settle (f tt)); simpl; intros [<-|[]]; reflexivity.
  - unfold execute, final_state, finish; cbn [fst].
    destruct (clear_along_without_handlers settle (operations p) 0 0
                (exec_init settle p) (exec_init settle (without_handlers p)) Hc
                eq_refl eq_refl) as [Hr He].
    change (exec_init settle (without_handlers p)) with (exec_init settle p) in Hr, He.
    change (operations (without_handlers p)) with (filter keep_step (operations p)).
    change (exec_init settle (without_handlers p)) with (exec_init settle p).
    rewrite <- Hr, <- He; reflexivity.
Qed.

Lemma handlers_inert_without_error_witness :
  never_enters_error (fun r => r) (catch (pipe (gluify seed5) times2) recover_str) = true /\
  fst (run (catch (pipe (gluify seed5) times2) recover_str)) =
  fst (run (without_handlers (catch (pipe (gluify seed5) times2) recover_str))).
Proof.
  split; [reflexivity|].
  exact (proj2 (handlers_inert_without_error (fun r => r)
                  (catch (pipe (gluify seed5) times2) recover_str) eq_refl)).
Defined.

(** ** Builders *)

Lemma builds_lazy (fn : unit -> outcome) (v0 : value) (pre : list operation)
    (bs : list builder) :
  builds (mkGluify v0 pre true (Some fn)) bs =
  mkGluify v0 (pre ++ map builder_operation bs) true (Some fn).
Proof.
  revert pre; induction bs as [|b bs IH]; intros pre; simpl.
  - now rewrite app_nil_r.
  - replace (build (mkGluify v0 pre true (Some fn)) b)
      with (mkGluify v0 (pre ++ [builder_operation b]) true (Some fn))
      by (destruct b; reflexivity).
    rewrite IH; now rewrite <- app_assoc.
Qed.

Lemma gstore_wf_object (st : gstore) (m : nat) (g : gobj) :
  gstore_wf st -> objects st m = Some g -> m <> next_object st.
Proof.
  intros [_ Ho] Hm ->; rewrite (Ho (next_object st) (le_n _)) in Hm; discriminate.
Qed.

Lemma gstore_wf_array (st : gstore) (a : nat) (xs : list operation) :
  gstore_wf st -> op_arrays st a = Some xs -> a <> next_array st.
Proof.
  intros [Ha _] Hm ->; rewrite (Ha (next_array st) (le_n _)) in Hm; discriminate.
Qed.

(** What [this.createNext([...this.operations, operation])] does to the
    store. *)
Lemma append_st_eq (st : gstore) (this : nat) (o : operation) (g : gobj)
    (xs : list operation) :
  objects st this = Some g -> op_arrays st (g_operations g) = Some xs ->
  append_st st this o =
  Some (mkGstore (fun a => if Nat.eqb a (next_array st) then Some (xs ++ [o])
                           else op_arrays st a)
                 (fun m => if Nat.eqb m (next_object st)
                           then Some (mkGobj (g_initialValue g) (next_array st)
                                             (g_isLazy g) (g_lazyInitializer g))
                           else objects st m)
                 (S (next_array st)) (S (next_object st)) (calls st),
        next_object st).
Proof. intros Hg Hx; unfold append_st; rewrite Hg, Hx; reflexivity. Qed.

Lemma append_st_wf (st : gstore) (this : nat) (o : operation) (g : gobj)
    (xs : list operation) :
  gstore_wf st -> objects st this = Some g -> op_arrays st (g_operations g) = Some xs ->
  forall st' n, append_st st this o = Some (st', n) -> gstore_wf st'.
Proof.
  intros [Ha Ho] Hg Hx st' n E; rewrite (append_st_eq st this o g xs Hg Hx) in E.
  injection E as <- _; split; simpl.
  - intros a Hle; destruct (Nat.eqb_spec a (next_array st)); [lia|]; apply Ha; lia.
  - intros m Hle; destruct (Nat.eqb_spec m (next_object st)); [lia|]; apply Ho; lia.
Qed.

(** Every object already in the store describes the same pipeline after a
    builder call. *)
Lemma append_st_keeps (st : gstore) (this : nat) (o : operation) (g : gobj)
    (xs : list operation) :
  gstore_wf st -> objects st this = Some g -> op_arrays st (g_operations g) = Some xs ->
  forall st' n, append_st st this o = Some (st', n) ->
  forall m q, pipeline_of st m = Some q -> pipeline_of st' m = Some q.
Proof.
  intros Hwf Hg Hx st' n E m q Hq; rewrite (append_st_eq st this o g xs Hg Hx) in E.
  injection E as <- _; unfold pipeline_of in *; simpl.
  destruct (objects st m) as [gm|] eqn:Hm; [|discriminate].
  destruct (op_arrays st (g_operations gm)) as [ys|] eqn:Hy; [|discriminate].
  destruct (Nat.eqb_spec m (next_object st)) as [Heq|_];
    [exfalso; exact (gstore_wf_object st m gm Hwf Hm Heq)|].
  destruct (Nat.eqb_spec (g_operations gm) (next_array st)) as [Heq|_];
    [exfalso; exact (gstore_wf_array st _ ys Hwf Hy Heq)|].
  rewrite Hy; exact Hq.
Qed.

Lemma build_st_step (st : gstore) (this : nat) (b : builder) (p : pipeline) :
  gstore_wf st -> pipeline_of st this = Some p ->
  exists st' n, build_st st this b = Some (st', n) /\ gstore_wf st' /\
    pipeline_of st' n = Some (build p b) /\ calls st' = calls st /\
    (forall m q, pipeline_of st m = Some q -> pipeline_of st' m = Some q).
Proof.
  intros Hwf Hp; unfold pipeline_of in Hp.
  destruct (objects st this) as [g|] eqn:Hg; [|discriminate].
  destruct (op_arrays st (g_operations g)) as [xs|] eqn:Hx; [|discriminate].
  injection Hp as <-.
  pose proof (append_st_eq st this (builder_operation b) g xs Hg Hx) as E.
  exists (fst (mkGstore (fun a => if Nat.eqb a (next_array st)
                                  then Some (xs ++ [builder_operation b]) else op_arrays st a)
                        (fun m => if Nat.eqb m (next_object st)
                                  then Some (mkGobj (g_initialValue g) (next_array st)
                                                    (g_isLazy g) (g_lazyInitializer g))
                                  else objects st m)
                        (S (next_array st)) (S (next_object st)) (calls st), 0)),
         (next_object st).
  unfold build_st; rewrite E; split; [reflexivity|].
  split; [exact (append_st_wf st this _ g xs Hwf Hg Hx _ _ E)|].
  split; [|split; [reflexivity | exact (append_st_keeps st this _ g xs Hwf Hg Hx _ _ E)]].
  unfold pipeline_of; simpl; rewrite !Nat.eqb_refl; simpl.
  destruct b; reflexivity.
Qed.

Lemma builds_st_chain (bs : list builder) :
  forall st this p, gstore_wf st -> pipeline_of st this = Some p ->
  exists st' n, builds_st st this bs = Some (st', n) /\ gstore_wf st' /\
    pipeline_of st' n = Some (builds p bs) /\ calls st' = calls st /\
    (forall m q, pipeline_of st m = Some q -> pipeline_of st' m = Some q).
Proof.
  induction bs as [|b bs IH]; intros st this p Hwf Hp.
  - exists st, this; split; [reflexivity|split; [exact Hwf|split; [exact Hp|split; auto]]].
  - destruct (build_st_step st this b p Hwf Hp) as [st1 [n1 [E [Hwf1 [Hp1 [Hc1 Hk1]]]]]].
    destruct (IH st1 n1 (build p b) Hwf1 Hp1) as [st' [n [E' [Hwf' [Hp' [Hc' Hk']]]]]].
    exists st', n; simpl; rewrite E.
    split; [exact E'|split; [exact Hwf'|split; [exact Hp'|split; [congruence|auto]]]].
Qed.

Lemma gluify_st_spec (st : gstore) (fn : unit -> outcome) :
  gstore_wf st ->
  gstore_wf (fst (gluify_st st fn)) /\
  pipeline_of (fst (gluify_st st fn)) (snd (gluify_st st fn)) = Some (gluify fn) /\
  calls (fst (gluify_st st fn)) = calls st /\
  (forall m q, pipeline_of st m = Some q -> pipeline_of (fst (gluify_st st fn)) m = Some q).
Proof.
  intros Hwf; destruct Hwf as [Ha Ho]; simpl.
  split; [split; simpl|split; [|split; [reflexivity|]]].
  - intros a Hle; destruct (Nat.eqb_spec a (next_array st)); [lia|]; apply Ha; lia.
  - intros m Hle; destruct (Nat.eqb_spec m (next_object st)); [lia|]; apply Ho; lia.
  - unfold pipeline_of; simpl; rewrite !Nat.eqb_refl; reflexivity.
  - intros m q Hq; unfold pipeline_of in *; simpl.
    destruct (objects st m) as [gm|] eqn:Hm; [|discriminate].
    destruct (op_arrays st (g_operations gm)) as [ys|] eqn:Hy; [|discriminate].
    destruct (Nat.eqb_spec m (next_object st)) as [Heq|_];
      [exfalso; exact (gstore_wf_object st m gm (conj Ha Ho) Hm Heq)|].
    destruct (Nat.eqb_spec (g_operations gm) (next_array st)) as [Heq|_];
      [exfalso; exact (gstore_wf_array st _ ys (conj Ha Ho) Hy Heq)|].
    rewrite Hy; exact Hq.
Qed.

(** C6: (a) every builder call (pipe, pipeAsync, tap, catch, recover, when
    and each convenience transform) on an object [this] of a store makes no
    call (the log is unchanged) and changes no existing object or array: it
    allocates one new array, at a fresh address, holding the receiver's
    operations with exactly the builder's operation appended, and one new
    object, at a fresh address, with the receiver's seed fields and that
    array.  So the receiver, and every object sharing its array, describes
    the same pipeline as before, and the new object the old pipeline with
    one step appended.  (b) A chain of builder calls starting from
    [gluify(fn)] leaves the log unchanged and the [gluify(fn)] object as it
    was; the last object holds [fn] and one operation per call, in call
    order, and [run()] on it makes the first call, to [fn]. *)
Theorem builders_append_one_step :
  (forall st this b g xs st' n,
     gstore_wf st ->
     objects st this = Some g -> op_arrays st (g_operations g) = Some xs ->
     build_st st this b = Some (st', n) ->
     calls st' = calls st /\
     objects st n = None /\ op_arrays st (next_array st) = None /\
     objects st' n = Some (mkGobj (g_initialValue g) (next_array st)
                                  (g_isLazy g) (g_lazyInitializer g)) /\
     op_arrays st' (next_array st) = Some (xs ++ [builder_operation b]) /\
     (forall m, m <> n -> objects st' m = objects st m) /\
     (forall a, a <> next_array st -> op_arrays st' a = op_arrays st a) /\
     (forall m q, pipeline_of st m = Some q -> pipeline_of st' m = Some q) /\
     pipeline_of st' n =
       Some (mkGluify (g_initialValue g) (xs ++ [builder_operation b])
                      (g_isLazy g) (g_lazyInitializer g))) /\
  (forall st fn bs,
     gstore_wf st ->
     exists st' n,
       builds_st (fst (gluify_st st fn)) (snd (gluify_st st fn)) bs = Some (st', n) /\
       calls st' = calls st /\
       pipeline_of st' (snd (gluify_st st fn)) = Some (gluify fn) /\
       pipeline_of st' n = Some (mkGluify VUndef (map builder_operation bs) true (Some fn)) /\
       forall st'' r, run_st st' n = Some (st'', r) ->
       exists t, calls st'' = calls st ++ EvSeed (fn tt) :: t).
Proof.
  split.
  - intros st this b g xs st' n Hwf Hg Hx E.
    unfold build_st in E; rewrite (append_st_eq st this _ g xs Hg Hx) in E.
    pose proof (append_st_keeps st this (builder_operation b) g xs Hwf Hg Hx) as Hk.
    rewrite (append_st_eq st this _ g xs Hg Hx) in Hk.
    specialize (Hk _ _ eq_refl).
    injection E as <- <-.
    destruct Hwf as [Ha Ho].
    repeat split; simpl; rewrite ?Nat.eqb_refl; auto.
    + intros m Hm; apply Nat.eqb_neq in Hm; rewrite Hm; reflexivity.
    + intros a Hm; apply Nat.eqb_neq in Hm; rewrite Hm; reflexivity.
    + unfold pipeline_of; simpl; rewrite !Nat.eqb_refl; reflexivity.
  - intros st fn bs Hwf.
    destruct (gluify_st_spec st fn Hwf) as [Hwf1 [Hp1 [Hc1 _]]].
    destruct (builds_st_chain bs _ _ _ Hwf1 Hp1) as [st' [n [E [_ [Hp [Hc Hk]]]]]].
    exists st', n; split; [exact E|].
    unfold gluify in Hp; rewrite (builds_lazy fn VUndef [] bs) in Hp.
    split; [congruence|]; split; [exact (Hk _ _ Hp1)|]; split; [exact Hp|].
    intros st'' r Hr; unfold run_st in Hr; rewrite Hp in Hr.
    destruct (exec_ops_trace (fun r => r) ([] ++ map builder_operation bs) 0
                (exec_init (fun r => r)
                   (mkGluify VUndef ([] ++ map builder_operation bs) true (Some fn))))
      as [t [Ht _]].
    unfold run, execute, final_state in Hr; cbn [snd fst operations] in Hr.
    rewrite Ht in Hr; injection Hr as <- _; simpl.
    exists t; rewrite Hc, Hc1; unfold exec_init; simpl.
    destruct (fn tt); reflexivity.
Qed.

Lemma builders_append_one_step_witness :
  exists st' n,
    builds_st (fst (gluify_st empty_gstore seed5)) (snd (gluify_st empty_gstore seed5))
      [BPipe times2; BCatch recover_str] = Some (st', n) /\
    calls st' = [] /\
    pipeline_of st' (snd (gluify_st empty_gstore seed5)) = Some (gluify seed5) /\
    pipeline_of st' n =
      Some (mkGluify VUndef [pipe_operation times2; catch_operation recover_str]
                     true (Some seed5)) /\
    forall st'' r, run_st st' n = Some (st'', r) ->
    exists t, calls st'' = [] ++ EvSeed (seed5 tt) :: t.
Proof.
  apply (proj2 builders_append_one_step empty_gstore seed5 [BPipe times2; BCatch recover_str]).
  split; intros; reflexivity.
Defined.

(** ** [tap] *)

Lemma await_val_plain (v : value) : isPromise v = false -> await_val v = Ok v.
Proof. destruct v; simpl; congruence. Qed.

(** C8, counterexample: [new Gluify(Promise.resolve(5)).tap(f)] under
    [runAsync]: the eager seed is not awaited, so the value reaching the tap
    step is the promise, and the step's awaited output replaces it by [5];
    a [pipe(x => x instanceof Promise)] step after the tap sees [5], while
    without the tap it sees the promise. *)
Lemma tap_async_eager_promise :
  let s := exec_init await_out
             (tap (seeded (VPromise true (VNum 5)) []) (fun _ => Ok VUndef)) in
  result s = VPromise true (VNum 5) /\
  result (exec_step await_out 0 (tap_operation (fun _ => Ok VUndef)) s) = VNum 5 /\
  fst (runAsync (pipe (tap (seeded (VPromise true (VNum 5)) []) (fun _ => Ok VUndef))
                      is_promise_fn)) = Ok (VBool false) /\
  fst (runAsync (pipe (seeded (VPromise true (VNum 5)) []) is_promise_fn)) = Ok (VBool true).
Proof. repeat split; reflexivity. Qed.

(** ** [runAsync]: [pipe], [pipeAsync] and synchronous composition *)

Lemma await_val_not_promise (v w : value) :
  await_val v = Ok w -> isPromise w = false.
Proof.
  induction v as [| | | | | |b v IH]; simpl; intros H;
    try (inversion H; reflexivity).
  destruct b; [exact (IH H) | discriminate].
Qed.

Lemma await_out_not_promise (o : outcome) (w : value) :
  await_out o = Ok w -> isPromise w = false.
Proof. destruct o; simpl; [apply await_val_not_promise | discriminate]. Qed.

(** Under [runAsync] every value stored in [result] has been awaited. *)
Lemma async_step_not_promise (k : nat) (o : operation) (s : state) :
  isPromise (result s) = false ->
  isPromise (result (exec_step await_out k o s)) = false.
Proof.
  intros H; unfold exec_step.
  destruct (truthy (error s)), (errorHandler o) as [h|]; auto.
  - destruct (await_out (h (error s))) eqn:E; simpl; auto.
    exact (await_out_not_promise _ _ E).
  - destruct (await_out (op o (result s))) eqn:E; simpl; auto.
    exact (await_out_not_promise _ _ E).
Qed.

Lemma async_ops_not_promise (ops : list operation) :
  forall k s, isPromise (result s) = false ->
  isPromise (result (exec_ops await_out k ops s)) = false.
Proof.
  induction ops as [|o ops IH]; intros k s H; simpl; auto.
  apply IH, async_step_not_promise, H.
Qed.

Lemma async_init_not_promise (v0 : value) (ops : list operation) (f0 : unit -> outcome) :
  isPromise (result (exec_init await_out (mkGluify v0 ops true (Some f0)))) = false.
Proof.
  unfold exec_init; simpl.
  destruct (await_out (f0 tt)) eqn:E; simpl; auto.
  exact (await_out_not_promise _ _ E).
Qed.




(** Under [runAsync], a pipeline whose starting value is not a promise
    (a lazy producer, whose result is awaited, or a non-promise seed)
    never hands a promise to a step. *)
Lemma async_start_not_promise (iv : value) (ops : list operation) (lz : bool)
    (li : option (unit -> outcome)) :
  (lz = true /\ li <> None) \/ isPromise iv = false ->
  isPromise (result (exec_init await_out (mkGluify iv ops lz li))) = false.
Proof.
  intros H; unfold exec_init; cbn [isLazy lazyInitializer initialValue].
  destruct lz, li as [f|].
  - destruct (await_out (f tt)) eqn:E; simpl; auto.
    exact (await_out_not_promise _ _ E).
  - destruct H as [[_ H]|H]; [contradiction | exact H].
  - destruct H as [[H _]|H]; [discriminate | exact H].
  - destruct H as [[H _]|H]; [discriminate | exact H].
Qed.

(** C8 (P7, tap invariance), as the code has it.  (a) Under either
    executor, when [fn] throws, a [tap(fn)] step has exactly the effect of
    a failing [pipe(fn)] step.  (b) Under [run()], whatever [fn] returns,
    the step leaves the value (and the error slot) as they were.  (c) Under
    [runAsync()] the same holds whenever the value reaching the step is not
    a promise, (d) which is the case for every step of a pipeline built by
    [gluify()]. *)
Theorem tap_keeps_value (fn : value -> outcome) :
  (forall settle k s e, fn (result s) = Throw e ->
     exec_step settle k (tap_operation fn) s = exec_step settle k (pipe_operation fn) s) /\
  (forall k s r, fn (result s) = Ok r ->
     result (exec_step (fun r => r) k (tap_operation fn) s) = result s /\
     error (exec_step (fun r => r) k (tap_operation fn) s) = error s) /\
  (forall k s r, isPromise (result s) = false -> fn (result s) = Ok r ->
     result (exec_step await_out k (tap_operation fn) s) = result s /\
     error (exec_step await_out k (tap_operation fn) s) = error s) /\
  (forall f0 pre post,
     let s := exec_ops await_out 0 pre
                (exec_init await_out
                   (mkGluify VUndef (pre ++ tap_operation fn :: post) true (Some f0))) in
     forall r, fn (result s) = Ok r ->
     result (exec_step await_out (length pre) (tap_operation fn) s) = result s /\
     error (exec_step await_out (length pre) (tap_operation fn) s) = error s).
Proof.
  assert (Hasync : forall k s r, isPromise (result s) = false -> fn (result s) = Ok r ->
     result (exec_step await_out k (tap_operation fn) s) = result s /\
     error (exec_step await_out k (tap_operation fn) s) = error s).
  { intros k s r Hp Hr; unfold exec_step; simpl.
    destruct (truthy (error s)); [auto|].
    rewrite Hr; simpl; rewrite (await_val_plain _ Hp); simpl; auto. }
  split; [|split; [|split]].
  - intros settle k s e He; unfold exec_step; simpl.
    destruct (truthy (error s)); [reflexivity|].
    rewrite He; reflexivity.
  - intros k s r Hr; unfold exec_step; simpl.
    destruct (truthy (error s)); [auto|].
    rewrite Hr; simpl; auto.
  - exact Hasync.
  - intros f0 pre post s r Hr; apply (Hasync _ s r); [|exact Hr].
    apply async_ops_not_promise, async_start_not_promise.
    left; split; [reflexivity | discriminate].
Qed.

Lemma tap_keeps_value_witness :
  result (exec_step await_out 0 (tap_operation times2) (mkState (VNum 3) VNull [])) = VNum 3.
Proof.
  exact (proj1 (proj1 (proj2 (proj2 (tap_keeps_value times2)))
                  0 (mkState (VNum 3) VNull []) (VNum 6) eq_refl eq_refl)).
Defined.





(** ** [sort] and [reverse] copy their input *)

(** C10: for an array reaching a [sort] or [reverse] step, the step
    allocates a new array (at the fresh address [next h]), sorts or reverses
    that copy in place, and returns it; the input array and every other
    array of the store keep their elements. *)
Theorem sort_reverse_copy_input
    (sort_elements : list value -> list value * option value)
    (h : heap) (l : nat) (xs : list value) :
  heap_wf h -> cells h l = Some xs ->
  (forall h' r, sort_operation sort_elements h (VRef l) = Some (h', r) ->
     cells h' l = Some xs /\
     cells h' (next h) = Some (fst (sort_elements xs)) /\
     (forall l0, l0 <> next h -> cells h' l0 = cells h l0) /\
     next h <> l /\ cells h (next h) = None /\
     (forall v, r = Ok v -> v = VRef (next h))) /\
  (forall h' r, reverse_operation h (VRef l) = Some (h', r) ->
     cells h' l = Some xs /\
     cells h' (next h) = Some (rev xs) /\
     (forall l0, l0 <> next h -> cells h' l0 = cells h l0) /\
     next h <> l /\ cells h (next h) = None /\
     r = Ok (VRef (next h))).
Proof.
  intros Hwf Hl.
  assert (Hfresh : cells h (next h) = None) by (apply Hwf; lia).
  assert (Hne : next h <> l) by (intros E; rewrite E in Hfresh; congruence).
  assert (Hother : forall l0, l0 <> next h -> (l0 =? next h) = false)
    by (intros l0 E; apply Nat.eqb_neq; exact E).
  split.
  - intros h' r.
    unfold sort_operation, spread, alloc, write; rewrite Hl; simpl.
    rewrite Nat.eqb_refl.
    destruct (sort_elements xs) as [zs [e|]]; intros E; inversion E; subst; simpl;
      rewrite (Hother l (not_eq_sym Hne)), Nat.eqb_refl;
      repeat split; auto; try discriminate;
      try (intros l0 Hl0; rewrite (Hother l0 Hl0); reflexivity);
      intros v Hv; congruence.
  - intros h' r.
    unfold reverse_operation, spread, alloc, write; rewrite Hl; simpl.
    rewrite Nat.eqb_refl.
    intros E; inversion E; subst; simpl.
    rewrite (Hother l (not_eq_sym Hne)), Nat.eqb_refl.
    repeat split; auto.
    intros l0 Hl0; rewrite (Hother l0 Hl0); reflexivity.
Qed.

(** A store holding one array [[3, 1]] at address 0. *)
Definition heap_3_1 : heap :=
  mkHeap (fun l => match l with 0 => Some [VNum 3; VNum 1] | _ => None end) 1.

Lemma heap_3_1_wf : heap_wf heap_3_1.
Proof. intros l Hl; destruct l as [|l]; simpl in *; [lia | reflexivity]. Qed.

(** An engine sort that happens to reverse the two elements. *)
Definition rev_sort (xs : list value) : list value * option value := (rev xs, None).

Lemma sort_reverse_copy_input_witness :
  match sort_operation rev_sort heap_3_1 (VRef 0) with
  | Some (h', _) => cells h' 0 = Some [VNum 3; VNum 1]
  | None => False
  end.
Proof.
  destruct (sort_operation rev_sort heap_3_1 (VRef 0)) as [[h' r]|] eqn:E.
  - exact (proj1 (proj1 (sort_reverse_copy_input rev_sort heap_3_1 0 [VNum 3; VNum 1]
                           heap_3_1_wf eq_refl) h' r E)).
  - vm_compute in E; discriminate.
Defined.

(** ** Appending steps to a pipeline *)

Section Append.

Variable settle : outcome -> outcome.

Lemma final_state_append (p : pipeline) (post : list operation) :
  final_state settle (createNext p (operations p ++ post)) =
  exec_ops settle (length (operations p)) post (final_state settle p).
Proof.
  unfold final_state; cbn [operations createNext].
  rewrite exec_ops_app; reflexivity.
Qed.

(** A step that returns its input unchanged can be taken out. *)
Lemma transparent_step_removable (pre post : list operation) (o : operation)
    (iv : value) (lz : bool) (li : option (unit -> outcome)) :
  errorHandler o = None ->
  (forall v, settle (op o v) = Ok v) ->
  fst (execute settle (mkGluify iv (pre ++ o :: post) lz li)) =
  fst (execute settle (mkGluify iv (pre ++ post) lz li)).
Proof.
  intros Ho Hid; unfold execute, final_state; cbn [fst operations].
  rewrite !exec_ops_app; cbn [exec_ops].
  change (exec_init settle (mkGluify iv (pre ++ post) lz li))
    with (exec_init settle (mkGluify iv (pre ++ o :: post) lz li)).
  set (s := exec_ops settle 0 pre (exec_init settle (mkGluify iv (pre ++ o :: post) lz li))).
  assert (Hr : result (exec_step settle (0 + length pre) o s) = result s /\
               error (exec_step settle (0 + length pre) o s) = error s).
  { unfold exec_step; rewrite Ho.
    destruct (truthy (error s)); [auto|].
    rewrite Hid; simpl; auto. }
  destruct Hr as [Hr He].
  destruct (exec_ops_strip settle post (S (0 + length pre)) (0 + length pre) _ s Hr He)
    as [Hr' He'].
  unfold finish; rewrite Hr', He'; reflexivity.
Qed.

End Append.

Lemma finish_ok (s : state) (v : value) :
  finish (fun r => r) s = Ok v -> truthy (error s) = false /\ result s = v.
Proof.
  unfold finish; destruct (truthy (error s)); intros H; inversion H; auto.
Qed.

Lemma finish_throw (s : state) (e : value) :
  finish (fun r => r) s = Throw e -> truthy (error s) = true /\ error s = e.
Proof.
  unfold finish; destruct (truthy (error s)); intros H; inversion H; auto.
Qed.

(** Under [run], appending one plain (non-handler) step. *)
Lemma execute_append_plain (p : pipeline) (o : operation) :
  errorHandler o = None ->
  fst (run (createNext p (operations p ++ [o]))) =
  match fst (run p) with
  | Ok v =>
      match op o v with
      | Ok w => Ok w
      | Throw e => if truthy e then Throw e else Ok v
      end
  | Throw e => Throw e
  end.
Proof.
  intros Ho; unfold run, execute; cbn [fst].
  rewrite final_state_append; cbn [exec_ops].
  destruct (finish (fun r => r) (final_state (fun r => r) p)) as [v|e] eqn:F.
  - apply finish_ok in F as [Ht Hr].
    unfold exec_step; rewrite Ht, Ho, Hr.
    destruct (op o v) as [w|e]; unfold finish; simpl; rewrite ?Ht; reflexivity.
  - apply finish_throw in F as [Ht He].
    unfold exec_step; rewrite Ht, Ho.
    unfold finish; rewrite Ht, He; reflexivity.
Qed.

(** [catch(handler)] or [recover(fallbackValue)] as the last step: when the
    handler cannot fail, the execution cannot fail either, whatever the
    earlier steps do.  Under [run()] this holds for every pipeline.  Under
    [runAsync()] the handler's awaited result must succeed (e.g. a fallback
    value that is not a rejected promise), and the pipeline's starting value
    must not be a promise (a lazy producer, or a non-promise seed): the
    final [return result] of the async method adopts a promise left in
    [result] by an eager promise seed, and a rejected one makes the returned
    promise reject. *)
Theorem catch_last_never_throws (p : pipeline) (h : value -> outcome) :
  ((forall e, exists v, h e = Ok v) ->
   exists v, fst (run (catch p h)) = Ok v) /\
  ((isLazy p = true /\ lazyInitializer p <> None) \/ isPromise (initialValue p) = false ->
   (forall e, exists v, await_out (h e) = Ok v) ->
   exists v, fst (runAsync (catch p h)) = Ok v).
Proof.
  split.
  - intros Hh; unfold catch, run, execute; cbn [fst].
    rewrite final_state_append; cbn [exec_ops].
    set (s := final_state (fun r => r) p).
    unfold exec_step; cbn [errorHandler catch_operation].
    destruct (truthy (error s)) eqn:Ht.
    + destruct (Hh (error s)) as [v Hv]; rewrite Hv.
      exists v; reflexivity.
    + exists (result s); unfold finish; rewrite Ht; reflexivity.
  - intros Hstart Hh; unfold catch, runAsync, execute; cbn [fst].
    rewrite final_state_append; cbn [exec_ops].
    assert (Hp : isPromise (result (final_state await_out p)) = false).
    { destruct p as [iv ops lz li]; unfold final_state.
      apply async_ops_not_promise, async_start_not_promise, Hstart. }
    set (s := final_state await_out p) in *.
    unfold exec_step; cbn [errorHandler catch_operation].
    destruct (truthy (error s)) eqn:Ht.
    + destruct (Hh (error s)) as [v Hv]; rewrite Hv.
      exists v; unfold finish; simpl.
      exact (await_val_plain _ (await_out_not_promise _ _ Hv)).
    + exists (result s); unfold finish; rewrite Ht; simpl.
      exact (await_val_plain _ Hp).
Qed.

Lemma catch_last_never_throws_witness :
  exists v, fst (runAsync (recover (pipe (gluify seed5) fail_on_num) (VNum 0))) = Ok v.
Proof.
  exact (proj2 (catch_last_never_throws (pipe (gluify seed5) fail_on_num)
                  (fun _ => Ok (VNum 0)))
           (or_introl (conj eq_refl (fun H : Some seed5 = None => match H with end)))
           (fun _ => ex_intro _ (VNum 0) eq_refl)).
Defined.

(** After a failure that no later handler can see, nothing more happens:
    appending steps none of which is a handler to a pipeline whose
    execution ends in error calls none of them, and the execution throws
    the same error with the same calls. *)
Theorem failure_skips_later_steps (settle : outcome -> outcome) (p : pipeline)
    (post : list operation) :
  truthy (error (final_state settle p)) = true ->
  forallb (fun o => negb (isErrorHandler o)) post = true ->
  execute settle (createNext p (operations p ++ post)) = execute settle p.
Proof.
  intros Ht Hpost; unfold execute.
  rewrite final_state_append.
  generalize (length (operations p)); revert Hpost.
  induction post as [|o post IH]; intros Hpost k; [reflexivity|].
  cbn [forallb] in Hpost; apply andb_prop in Hpost as [Ho Hpost].
  cbn [exec_ops].
  assert (E : exec_step settle k o (final_state settle p) = final_state settle p).
  { unfold exec_step; rewrite Ht.
    unfold isErrorHandler in Ho; destruct (errorHandler o); [discriminate | reflexivity]. }
  rewrite E; apply IH, Hpost.
Qed.

Lemma failure_skips_later_steps_witness :
  execute (fun r => r)
    (createNext (pipe (gluify seed5) fail_on_num)
       (operations (pipe (gluify seed5) fail_on_num) ++
        [pipe_operation times2; tap_operation plus10])) =
  run (pipe (gluify seed5) fail_on_num).
Proof.
  exact (failure_skips_later_steps (fun r => r) (pipe (gluify seed5) fail_on_num)
           [pipe_operation times2; tap_operation plus10] eq_refl eq_refl).
Defined.

(** The lazy producer is called exactly once per execution, before any
    step; a pipeline without a lazy producer makes no producer call. *)
Theorem producer_called_once_first (settle : outcome -> outcome) (p : pipeline) :
  (forall f, isLazy p = true -> lazyInitializer p = Some f ->
     exists t, snd (execute settle p) = EvSeed (settle (f tt)) :: t /\
               forall r, ~ In (EvSeed r) t) /\
  ((isLazy p = false \/ lazyInitializer p = None) ->
     forall r, ~ In (EvSeed r) (snd (execute settle p))).
Proof.
  destruct (exec_ops_trace settle (operations p) 0 (exec_init settle p)) as [t [Ht [_ Hf]]].
  assert (Hno : forall r, ~ In (EvSeed r) t).
  { intros r Hin; rewrite Forall_forall in Hf; specialize (Hf _ Hin); simpl in Hf; lia. }
  unfold execute, final_state; cbn [snd]; rewrite Ht.
  split.
  - intros f Hl Hi; exists t; split; [|exact Hno].
    unfold exec_init; rewrite Hl, Hi.
    destruct (settle (f tt)); reflexivity.
  - intros Hn r; unfold exec_init.
    destruct Hn as [Hn|Hn]; rewrite Hn;
      [|destruct (isLazy p)]; exact (Hno r).
Qed.

Lemma producer_called_once_first_witness :
  exists t, snd (run (pipe (gluify seed5) times2)) = EvSeed (seed5 tt) :: t /\
            forall r, ~ In (EvSeed r) t.
Proof.
  exact (proj1 (producer_called_once_first (fun r => r) (pipe (gluify seed5) times2))
           seed5 eq_refl eq_refl).
Defined.

(** A [catch] step reached without an error changes nothing: same value,
    same error slot, no call. *)
Lemma execute_catch_clear (settle : outcome -> outcome) (p : pipeline)
    (h : value -> outcome) :
  truthy (error (final_state settle p)) = false ->
  execute settle (catch p h) = execute settle p.
Proof.
  intros Ht; unfold execute, catch.
  rewrite final_state_append; cbn [exec_ops].
  unfold exec_step; rewrite Ht; reflexivity.
Qed.

(** [when(predicate, fn)] on a pipeline that produced [v]: [fn] is applied
    (exactly as by [pipe(fn)]) when [predicate(v)] is truthy; otherwise the
    pipeline still produces [v]. *)
Theorem run_when (p : pipeline) (predicate fn : value -> outcome) (v b : value) :
  fst (run p) = Ok v -> predicate v = Ok b ->
  fst (run (when p predicate fn)) =
  if truthy b then fst (run (pipe p fn)) else Ok v.
Proof.
  intros Hp Hb; unfold when, pipe, run.
  rewrite !execute_append_plain by reflexivity.
  change (execute (fun r => r) p) with (run p); rewrite Hp.
  cbn [op when_operation pipe_operation]; rewrite Hb.
  destruct (truthy b); reflexivity.
Qed.

Lemma run_when_witness :
  fst (run (when (gluify (fun _ => Ok (VNum 10))) gt5 times2)) = Ok (VNum 20) /\
  fst (run (when (gluify (fun _ => Ok (VNum 3))) gt5 times2)) = Ok (VNum 3).
Proof.
  split.
  - rewrite (run_when (gluify (fun _ => Ok (VNum 10))) gt5 times2 (VNum 10) (VBool true))
      by reflexivity.
    reflexivity.
  - exact (run_when (gluify (fun _ => Ok (VNum 3))) gt5 times2 (VNum 3) (VBool false)
             eq_refl eq_refl).
Defined.

(** Under [run()], a [tap(fn)] step whose [fn] does not throw can be
    removed anywhere in a pipeline without changing the result. *)
Theorem run_tap_removable (pre post : list operation) (fn : value -> outcome)
    (iv : value) (lz : bool) (li : option (unit -> outcome)) :
  (forall v, exists r, fn v = Ok r) ->
  fst (run (mkGluify iv (pre ++ tap_operation fn :: post) lz li)) =
  fst (run (mkGluify iv (pre ++ post) lz li)).
Proof.
  intros Hfn; unfold run.
  apply transparent_step_removable; [reflexivity|].
  intros v; cbn [op tap_operation]; destruct (Hfn v) as [r Hr]; rewrite Hr; reflexivity.
Qed.

Lemma run_tap_removable_witness :
  fst (run (mkGluify VUndef [tap_operation plus10; pipe_operation times2] true (Some seed5))) =
  fst (run (mkGluify VUndef [pipe_operation times2] true (Some seed5))).
Proof.
  exact (run_tap_removable [] [pipe_operation times2] plus10 VUndef true (Some seed5)
           (fun v => match v with VNum n => ex_intro _ _ eq_refl | _ => ex_intro _ _ eq_refl end)).
Defined.

(** [pipeAsync(fn)] run by the synchronous [run()]: the step returns a
    promise and never enters the error state, so the execution returns a
    promise (rejected with [e] when [fn] throws [e] on a plain value), and a
    [catch] placed after it is never invoked: the execution with the
    [catch] has the same result and the same calls as without it. *)
Theorem run_pipeAsync_returns_promise (p : pipeline) (fn h : value -> outcome) (v : value) :
  fst (run p) = Ok v ->
  (exists b w, fst (run (pipeAsync p fn)) = Ok (VPromise b w)) /\
  (forall e, isPromise v = false -> fn v = Throw e ->
     fst (run (pipeAsync p fn)) = Ok (VPromise false e)) /\
  run (catch (pipeAsync p fn) h) = run (pipeAsync p fn).
Proof.
  intros Hp.
  assert (E : fst (run (pipeAsync p fn)) = op (pipeAsync_operation fn) v).
  { unfold pipeAsync, run.
    rewrite execute_append_plain by reflexivity.
    change (execute (fun r => r) p) with (run p); rewrite Hp.
    cbn [op pipeAsync_operation]; reflexivity. }
  split; [|split].
  - rewrite E; cbn [op pipeAsync_operation].
    destruct (if isPromise v then await_val v else Ok v) as [r|e];
      [destruct (fn r)|]; do 2 eexists; reflexivity.
  - intros e Hv He; rewrite E; cbn [op pipeAsync_operation]; rewrite Hv, He; reflexivity.
  - destruct (fst (run (pipeAsync p fn))) as [w|e] eqn:F.
    + unfold run, execute in F; cbn [fst] in F.
      apply finish_ok in F as [Ht _].
      exact (execute_catch_clear (fun r => r) _ h Ht).
    + rewrite E in F; cbn [op pipeAsync_operation] in F; discriminate.
Qed.

Lemma run_pipeAsync_returns_promise_witness :
  fst (run (pipeAsync (gluify seed5) fail_on_num)) = Ok (VPromise false (VRef 102)).
Proof.
  exact (proj1 (proj2 (run_pipeAsync_returns_promise (gluify seed5) fail_on_num
                         recover_str (VNum 5) eq_refl)) (VRef 102) eq_refl eq_refl).
Defined.

(** [defaultTo(d)] replaces only [undefined] and [null]: a pipeline that
    produced [v] now produces [d] if [v] is nullish and [v] itself otherwise
    (so [0], [''] and [false] are kept); a failing pipeline still fails with
    the same error. *)
Theorem run_defaultTo (p : pipeline) (d : value) :
  (forall v, fst (run p) = Ok v ->
     fst (run (defaultTo p d)) =
     Ok (match v with VUndef | VNull => d | _ => v end)) /\
  (forall e, fst (run p) = Throw e -> fst (run (defaultTo p d)) = Throw e).
Proof.
  unfold defaultTo.
  rewrite execute_append_plain by reflexivity.
  split; intros x Hx; rewrite Hx; [|reflexivity].
  destruct x; reflexivity.
Qed.

Lemma run_defaultTo_witness :
  fst (run (defaultTo (gluify (fun _ => Ok (VNum 0))) (VNum 7))) = Ok (VNum 0).
Proof.
  exact (proj1 (run_defaultTo (gluify (fun _ => Ok (VNum 0))) (VNum 7)) (VNum 0) eq_refl).
Defined.

(** [isNil()] gives [true] exactly for [undefined] and [null] (not for the
    other falsy values); after [defaultTo(d)] with a non-nullish [d] it is
    [false] for every pipeline that succeeds. *)
Theorem run_isNil_after_defaultTo (p : pipeline) (d v : value) :
  fst (run p) = Ok v ->
  fst (run (isNil p)) = Ok (VBool (match v with VUndef | VNull => true | _ => false end)) /\
  (match d with VUndef | VNull => False | _ => True end ->
   fst (run (isNil (defaultTo p d))) = Ok (VBool false)).
Proof.
  intros Hp; split.
  - unfold isNil, run.
    rewrite execute_append_plain by reflexivity.
    change (execute (fun r => r) p) with (run p); rewrite Hp; reflexivity.
  - intros Hd; unfold isNil at 1, run.
    rewrite execute_append_plain by reflexivity.
    change (execute (fun r => r) (defaultTo p d)) with (run (defaultTo p d)).
    rewrite (proj1 (run_defaultTo p d) v Hp).
    destruct v, d; simpl in *; try contradiction; reflexivity.
Qed.

Lemma run_isNil_after_defaultTo_witness :
  fst (run (isNil (defaultTo (gluify (fun _ => Ok VNull)) (VStr "x"%string)))) = Ok (VBool false).
Proof.
  exact (proj2 (run_isNil_after_defaultTo (gluify (fun _ => Ok VNull)) (VStr "x"%string) VNull
                  eq_refl) I).
Defined.


(** ** The array conveniences *)

Lemma alloc_frame (h : heap) (ys : list value) : frame h (snd (alloc h ys)).
Proof.
  intros l Hl; simpl.
  destruct (Nat.eqb_spec l (next h)); [lia | reflexivity].
Qed.

Lemma alloc_wf (h : heap) (ys : list value) : heap_wf h -> heap_wf (snd (alloc h ys)).
Proof.
  intros Hwf l Hl; simpl in *.
  destruct (Nat.eqb_spec l (next h)); [lia | apply Hwf; lia].
Qed.

Lemma alloc_old (h : heap) (ys : list value) (l : nat) (xs : list value) :
  heap_wf h -> cells h l = Some xs -> cells (snd (alloc h ys)) l = Some xs.
Proof.
  intros Hwf Hl; simpl.
  destruct (Nat.eqb_spec l (next h)) as [->|]; [|exact Hl].
  rewrite (Hwf (next h) (le_n _)) in Hl; discriminate.
Qed.

Lemma frame_refl (h : heap) : frame h h.
Proof. intros l _; reflexivity. Qed.


Lemma relative_index_le (n : Z) (len : nat) : relative_index n len <= len.
Proof.
  unfold relative_index; destruct (Z.ltb_spec n 0); lia.
Qed.

Lemma slice_from_start (xs : list value) (k : nat) : slice_elements xs 0 k = firstn k xs.
Proof. unfold slice_elements; rewrite Nat.sub_0_r; reflexivity. Qed.

Lemma slice_to_end (xs : list value) (k : nat) :
  slice_elements xs k (length xs) = skipn k xs.
Proof.
  unfold slice_elements; apply firstn_all2; rewrite length_skipn; lia.
Qed.

Lemma map_elements_spec (fn : value -> nat -> outcome) (xs : list value) :
  forall i0 ys, map_elements fn i0 xs = inl ys ->
  length ys = length xs /\
  forall i x, nth_error xs i = Some x ->
  exists y, fn x (i0 + i) = Ok y /\ nth_error ys i = Some y.
Proof.
  induction xs as [|x xs IH]; intros i0 ys H; simpl in H.
  - injection H as <-; split; [reflexivity|]; intros [|i] ? Hi; discriminate.
  - destruct (fn x i0) as [y|e] eqn:Hx; [|discriminate].
    destruct (map_elements fn (S i0) xs) as [ys'|e] eqn:Hr; [|discriminate].
    injection H as <-; destruct (IH _ _ Hr) as [Hlen Hnth].
    split; [simpl; f_equal; exact Hlen|].
    intros [|i] x' Hi; simpl in Hi.
    + injection Hi as <-; exists y; rewrite Nat.add_0_r; split; [exact Hx | reflexivity].
    + destruct (Hnth i x' Hi) as [y' [Hy' Hn]]; exists y'.
      rewrite Nat.add_succ_r; split; [exact Hy' | exact Hn].
Qed.

Lemma map_elements_throw (fn : value -> nat -> outcome) (xs : list value) :
  forall i0 e, map_elements fn i0 xs = inr e ->
  exists i x, nth_error xs i = Some x /\ fn x (i0 + i) = Throw e /\
  forall j y, j < i -> nth_error xs j = Some y -> exists z, fn y (i0 + j) = Ok z.
Proof.
  induction xs as [|x xs IH]; intros i0 e H; simpl in H; [discriminate|].
  destruct (fn x i0) as [y|e'] eqn:Hx.
  - destruct (map_elements fn (S i0) xs) as [ys'|e'] eqn:Hr; [discriminate|].
    injection H as <-; destruct (IH _ _ Hr) as [i [x' [Hi [He Hbefore]]]].
    exists (S i), x'; split; [exact Hi|]; split; [rewrite Nat.add_succ_r; exact He|].
    intros [|j] y' Hj Hy'; simpl in Hy'.
    + injection Hy' as <-; exists y; rewrite Nat.add_0_r; exact Hx.
    + destruct (Hbefore j y' ltac:(lia) Hy') as [z Hz]; exists z.
      rewrite Nat.add_succ_r; exact Hz.
  - injection H as <-; exists 0, x; split; [reflexivity|].
    rewrite Nat.add_0_r; split; [exact Hx|]; intros j y' Hj; lia.
Qed.

Lemma value_eqb_spec (a b : value) : value_eqb a b = true <-> a = b.
Proof.
  revert b; induction a; intros []; simpl;
    try (split; [discriminate | intros Heq; discriminate Heq]);
    try (split; reflexivity).
  - rewrite Bool.eqb_true_iff; split; [intros ->|injection 1]; auto.
  - rewrite Z.eqb_eq; split; [intros ->|injection 1]; auto.
  - rewrite String.eqb_eq; split; [intros ->|injection 1]; auto.
  - rewrite Nat.eqb_eq; split; [intros ->|injection 1]; auto.
  - rewrite andb_true_iff, Bool.eqb_true_iff, IHa.
    split; [intros [-> ->]|injection 1]; auto.
Qed.

Lemma existsb_value_eqb (x : value) (seen : list value) :
  existsb (value_eqb x) seen = true <-> In x seen.
Proof.
  rewrite existsb_exists; split.
  - intros [y [Hy Heq]]; apply value_eqb_spec in Heq; subst; exact Hy.
  - intros Hx; exists x; split; [exact Hx | apply value_eqb_spec; reflexivity].
Qed.

Lemma unique_from_In (xs : list value) :
  forall seen x, In x (unique_from seen xs) <-> In x xs /\ ~ In x seen.
Proof.
  induction xs as [|y xs IH]; intros seen x; simpl; [tauto|].
  destruct (existsb (value_eqb y) seen) eqn:Hy.
  - apply existsb_value_eqb in Hy; rewrite IH.
    split; [tauto|]; intros [[<-|Hx] Hn]; [contradiction | tauto].
  - simpl; rewrite IH; simpl.
    assert (~ In y seen) by (rewrite <- existsb_value_eqb, Hy; discriminate).
    split.
    + intros [<-|[Hx Hn]]; tauto.
    + intros [[<-|Hx] Hn]; [left; reflexivity|].
      destruct (value_eqb_spec y x) as [_ Hyx].
      destruct (value_eqb y x) eqn:E; [left; apply value_eqb_spec; exact E|].
      right; split; [exact Hx|]; intros [Heq|Hs]; [|contradiction].
      discriminate (Hyx Heq).
Qed.

Lemma unique_from_NoDup (xs : list value) : forall seen, NoDup (unique_from seen xs).
Proof.
  induction xs as [|y xs IH]; intros seen; simpl; [constructor|].
  destruct (existsb (value_eqb y) seen); [apply IH|].
  constructor; [|apply IH].
  rewrite unique_from_In; intros [_ Hn]; apply Hn; left; reflexivity.
Qed.

Lemma unique_from_id (ys : list value) :
  forall seen, NoDup ys -> (forall y, In y ys -> ~ In y seen) -> unique_from seen ys = ys.
Proof.
  induction ys as [|y ys IH]; intros seen Hnd Hdis; simpl; [reflexivity|].
  inversion Hnd as [|? ? Hy Hnd']; subst.
  destruct (existsb (value_eqb y) seen) eqn:E.
  - apply existsb_value_eqb in E; exfalso; exact (Hdis y (or_introl eq_refl) E).
  - f_equal; apply IH; [exact Hnd'|].
    intros z Hz [<-|Hs]; [contradiction | exact (Hdis z (or_intror Hz) Hs)].
Qed.

Lemma reduce_elements_app (fn : value -> value -> nat -> outcome) (xs : list value) :
  forall ys acc i,
  reduce_elements fn acc i (xs ++ ys) =
  match reduce_elements fn acc i xs with
  | Ok a => reduce_elements fn a (i + length xs) ys
  | Throw e => Throw e
  end.
Proof.
  induction xs as [|x xs IH]; intros ys acc i; simpl.
  - rewrite Nat.add_0_r; reflexivity.
  - destruct (fn acc x i); [|reflexivity].
    rewrite IH, Nat.add_succ_r; reflexivity.
Qed.



(** [take(n)] and [skip(n)] on the same array split it: the two new arrays
    put together give the input back, which stays unchanged.  For [n >= 0],
    [take(n)] has [min n length] elements; for [n < 0], [skip(n)] keeps the
    last [min (-n) length] elements. *)
Theorem take_skip_partition (n : Z) (h : heap) (l : nat) (xs : list value) :
  heap_wf h -> cells h l = Some xs ->
  exists h1 l1 ys h2 l2 zs,
    take_operation n h (VRef l) = Some (h1, Ok (VRef l1)) /\ cells h1 l1 = Some ys /\
    skip_operation n h1 (VRef l) = Some (h2, Ok (VRef l2)) /\ cells h2 l2 = Some zs /\
    ys ++ zs = xs /\ cells h2 l = Some xs /\
    ((0 <= n)%Z -> length ys = Nat.min (Z.to_nat n) (length xs)) /\
    ((n < 0)%Z -> length zs = Nat.min (Z.to_nat (- n)) (length xs)).
Proof.
  intros Hwf Hl.
  set (r := relative_index n (length xs)).
  set (h1 := snd (alloc h (firstn r xs))).
  set (h2 := snd (alloc h1 (skipn r xs))).
  assert (Hl1 : cells h1 l = Some xs) by (apply alloc_old; assumption).
  exists h1, (next h), (firstn r xs), h2, (next h1), (skipn r xs).
  split; [unfold take_operation; simpl; rewrite Hl, slice_from_start; reflexivity|].
  split; [simpl; rewrite Nat.eqb_refl; reflexivity|].
  split; [unfold skip_operation, array_of; rewrite Hl1, slice_to_end; reflexivity|].
  split; [simpl; rewrite Nat.eqb_refl; reflexivity|].
  split; [apply firstn_skipn|].
  split; [apply alloc_old; [apply alloc_wf|]; assumption|].
  assert (Hr := relative_index_le n (length xs)).
  split; intros Hn.
  - rewrite length_firstn; fold r in Hr.
    unfold r, relative_index; destruct (Z.ltb_spec n 0); [lia|].
    apply Nat2Z.inj; rewrite Nat2Z.inj_min, Nat2Z.inj_min, !Z2Nat.id; lia.
  - rewrite length_skipn; fold r in Hr.
    unfold r, relative_index; destruct (Z.ltb_spec n 0); [|lia].
    apply Nat2Z.inj; rewrite Nat2Z.inj_sub, Nat2Z.inj_min, !Z2Nat.id; lia.
Qed.

Lemma take_skip_partition_witness :
  exists h1 l1 ys h2 l2 zs,
    take_operation 1 heap_3_1 (VRef 0) = Some (h1, Ok (VRef l1)) /\ cells h1 l1 = Some ys /\
    skip_operation 1 h1 (VRef 0) = Some (h2, Ok (VRef l2)) /\ cells h2 l2 = Some zs /\
    ys ++ zs = [VNum 3; VNum 1] /\ cells h2 0 = Some [VNum 3; VNum 1] /\
    ((0 <= 1)%Z -> length ys = Nat.min (Z.to_nat 1) 2) /\
    ((1 < 0)%Z -> length zs = Nat.min (Z.to_nat (- 1)) 2).
Proof.
  exact (take_skip_partition 1 heap_3_1 0 [VNum 3; VNum 1] heap_3_1_wf eq_refl).
Defined.

(** [reverse()] twice gives back the elements of the input, in a third
    array: the input and the intermediate array are left as they were. *)
Theorem reverse_twice (h : heap) (l : nat) (xs : list value) :
  heap_wf h -> cells h l = Some xs ->
  exists h1 l1 h2 l2,
    reverse_operation h (VRef l) = Some (h1, Ok (VRef l1)) /\
    reverse_operation h1 (VRef l1) = Some (h2, Ok (VRef l2)) /\
    cells h2 l2 = Some xs /\ cells h2 l1 = Some (rev xs) /\ cells h2 l = Some xs /\
    l1 <> l /\ l2 <> l1 /\ l2 <> l.
Proof.
  intros Hwf Hl.
  assert (Hlt : l < next h).
  { destruct (Nat.lt_ge_cases l (next h)) as [|Hge]; [assumption|].
    rewrite (Hwf l Hge) in Hl; discriminate. }
  set (h1 := write (snd (alloc h xs)) (next h) (rev xs)).
  exists h1, (next h).
  exists (write (snd (alloc h1 (rev xs))) (next h1) (rev (rev xs))), (next h1).
  assert (Hn1 : next h1 = S (next h)) by reflexivity.
  assert (Hc1 : cells h1 (next h) = Some (rev xs)) by (simpl; rewrite Nat.eqb_refl; reflexivity).
  split; [unfold reverse_operation, spread; rewrite Hl; simpl; rewrite Nat.eqb_refl; reflexivity|].
  split; [unfold reverse_operation, spread; rewrite Hc1; simpl; rewrite Nat.eqb_refl; reflexivity|].
  rewrite Hn1; simpl; rewrite ?Nat.eqb_refl, ?rev_involutive.
  destruct (Nat.eqb_spec (next h) (S (next h))); [lia|].
  rewrite ?Nat.eqb_refl, ?rev_involutive.
  destruct (Nat.eqb_spec l (S (next h))); [lia|].
  destruct (Nat.eqb_spec l (next h)); [lia|].
  repeat split; try reflexivity; try exact Hl; lia.
Qed.

Lemma reverse_twice_witness :
  exists h1 l1 h2 l2,
    reverse_operation heap_3_1 (VRef 0) = Some (h1, Ok (VRef l1)) /\
    reverse_operation h1 (VRef l1) = Some (h2, Ok (VRef l2)) /\
    cells h2 l2 = Some [VNum 3; VNum 1] /\ cells h2 l1 = Some (rev [VNum 3; VNum 1]) /\
    cells h2 0 = Some [VNum 3; VNum 1] /\ l1 <> 0 /\ l2 <> l1 /\ l2 <> 0.
Proof.
  exact (reverse_twice heap_3_1 0 [VNum 3; VNum 1] heap_3_1_wf eq_refl).
Defined.

(** [map(fn)] either returns a new array with one element per input
    element, the [i]-th being [fn(arr[i], i)], or throws what the first
    throwing call threw, every earlier call having returned. *)
Theorem map_step_results (fn : value -> nat -> outcome) (h h' : heap) (l : nat)
    (xs : list value) (r : outcome) :
  cells h l = Some xs -> map_operation fn h (VRef l) = Some (h', r) ->
  (exists ys, r = Ok (VRef (next h)) /\ cells h' (next h) = Some ys /\
     length ys = length xs /\
     forall i x, nth_error xs i = Some x -> exists y, fn x i = Ok y /\ nth_error ys i = Some y)
  \/
  (exists i x e, r = Throw e /\ h' = h /\ nth_error xs i = Some x /\ fn x i = Throw e /\
     forall j y, j < i -> nth_error xs j = Some y -> exists z, fn y j = Ok z).
Proof.
  intros Hl Hs; unfold map_operation in Hs; simpl in Hs; rewrite Hl in Hs.
  destruct (map_elements fn 0 xs) as [ys|e] eqn:Hm; injection Hs as <- <-.
  - left; exists ys; split; [reflexivity|]; split; [simpl; rewrite Nat.eqb_refl; reflexivity|].
    exact (map_elements_spec fn xs 0 ys Hm).
  - right; destruct (map_elements_throw fn xs 0 e Hm) as [i [x [Hi [He Hb]]]].
    exists i, x, e; repeat split; auto.
Qed.

Lemma map_step_results_witness :
  exists h' r,
    map_operation times2_at heap_3_1 (VRef 0) = Some (h', r) /\
    ((exists ys, r = Ok (VRef (next heap_3_1)) /\ cells h' (next heap_3_1) = Some ys /\
        length ys = 2 /\
        forall i x, nth_error [VNum 3; VNum 1] i = Some x ->
        exists y, times2_at x i = Ok y /\ nth_error ys i = Some y)
     \/
     (exists i x e, r = Throw e /\ h' = heap_3_1 /\ nth_error [VNum 3; VNum 1] i = Some x /\
        times2_at x i = Throw e /\
        forall j y, j < i -> nth_error [VNum 3; VNum 1] j = Some y ->
        exists z, times2_at y j = Ok z)).
Proof.
  destruct (map_operation times2_at heap_3_1 (VRef 0)) as [[h' r]|] eqn:E.
  - exists h', r; split; [reflexivity|].
    exact (map_step_results times2_at heap_3_1 h' 0 [VNum 3; VNum 1] r eq_refl E).
  - vm_compute in E; discriminate.
Defined.

(** [unique()] returns a new array without repeated elements, holding
    exactly the elements of the input; applying it again changes nothing. *)
Theorem unique_step_dedups (h : heap) (l : nat) (xs : list value) :
  cells h l = Some xs -> existsb isPromise xs = false ->
  exists h' ys,
    unique_operation h (VRef l) = Some (h', Ok (VRef (next h))) /\
    cells h' (next h) = Some ys /\ NoDup ys /\ (forall x, In x ys <-> In x xs) /\
    unique_elements ys = ys.
Proof.
  intros Hl Hp.
  exists (snd (alloc h (unique_elements xs))), (unique_elements xs).
  split; [unfold unique_operation; simpl; rewrite Hl, Hp; reflexivity|].
  split; [simpl; rewrite Nat.eqb_refl; reflexivity|].
  split; [apply unique_from_NoDup|].
  split; [intros x; unfold unique_elements; rewrite unique_from_In; simpl; tauto|].
  apply unique_from_id; [apply unique_from_NoDup | intros y _ []].
Qed.

Lemma unique_step_dedups_witness :
  exists h' ys,
    unique_operation heap_1_1 (VRef 0) = Some (h', Ok (VRef (next heap_1_1))) /\
    cells h' (next heap_1_1) = Some ys /\ NoDup ys /\
    (forall x, In x ys <-> In x [VNum 1; VNum 1]) /\ unique_elements ys = ys.
Proof.
  exact (unique_step_dedups heap_1_1 0 [VNum 1; VNum 1] eq_refl eq_refl).
Defined.

(** [some] and [find] make the same predicate calls: they throw the same
    value, [find] returns [undefined] when [some] is [false], an element of
    the array otherwise; [every(p)] is the negation of [some] on the
    negated predicate. *)
Theorem some_find_every (predicate : value -> nat -> outcome) (xs : list value) :
  forall i,
  (forall e, some_elements predicate i xs = Throw e <-> find_elements predicate i xs = Throw e) /\
  (some_elements predicate i xs = Ok (VBool false) -> find_elements predicate i xs = Ok VUndef) /\
  (forall x, find_elements predicate i xs = Ok x -> x <> VUndef ->
     some_elements predicate i xs = Ok (VBool true) /\ In x xs) /\
  every_elements predicate i xs =
    match some_elements
            (fun x j => match predicate x j with
                        | Ok b => Ok (VBool (negb (truthy b)))
                        | Throw e => Throw e
                        end) i xs with
    | Ok (VBool b) => Ok (VBool (negb b))
    | o => o
    end.
Proof.
  induction xs as [|y xs IH]; intros i; simpl.
  - split; [intros e; split; discriminate|].
    split; [reflexivity|].
    split; [intros x Hx Hn; injection Hx as <-; contradiction | reflexivity].
  - destruct (predicate y i) as [b|e].
    + destruct (truthy b) eqn:Hb; simpl.
      * destruct (IH (S i)) as [_ [_ [_ H4]]].
        split; [intros e; split; discriminate|].
        split; [discriminate|].
        split; [|exact H4].
        intros x Hx _; injection Hx as <-; split; [reflexivity | left; reflexivity].
      * destruct (IH (S i)) as [H1 [H2 [H3 _]]].
        split; [exact H1|]; split; [exact H2|]; split; [|reflexivity].
        intros x Hx Hn; destruct (H3 x Hx Hn); split; [assumption | right; assumption].
    + split; [intros e'; split; intros H; exact H|].
      split; [discriminate|]; split; [intros x Hx; discriminate | reflexivity].
Qed.

Lemma some_find_every_witness :
  some_elements (fun x _ => Ok (VBool (negb (truthy x)))) 0 [VNum 3; VNum 0; VNum 2]
    = Ok (VBool true) /\ In (VNum 0) [VNum 3; VNum 0; VNum 2].
Proof.
  exact (proj1 (proj2 (proj2 (some_find_every (fun x _ => Ok (VBool (negb (truthy x))))
                                 [VNum 3; VNum 0; VNum 2] 0))) (VNum 0) eq_refl
           ltac:(discriminate)).
Defined.

(** [reduce(fn, initialValue)] folds from the left: reducing [xs ++ ys]
    reduces [ys] from the accumulator [xs] ends with, the indices going
    on; a throw in [xs] ends it.  On an empty array it returns
    [initialValue]. *)
Theorem reduce_app (fn : value -> value -> nat -> outcome) (xs ys : list value)
    (initialValue : value) :
  reduce_elements fn initialValue 0 [] = Ok initialValue /\
  reduce_elements fn initialValue 0 (xs ++ ys) =
  match reduce_elements fn initialValue 0 xs with
  | Ok a => reduce_elements fn a (length xs) ys
  | Throw e => Throw e
  end.
Proof. split; [reflexivity | exact (reduce_elements_app fn xs ys initialValue 0)]. Qed.


(** ** The string conveniences *)

Lemma code_units_of (u : list Ascii.ascii) : code_units (string_of_list_ascii u) = u.
Proof. apply list_ascii_of_string_of_list_ascii. Qed.

Lemma starts_with_app (r u v : list Ascii.ascii) :
  starts_with r u = true -> starts_with r (u ++ v) = true.
Proof.
  revert u; induction r as [|a r IH]; intros [|b u] H; simpl in *; try discriminate; auto.
  apply andb_true_iff in H as [Hab Hr]; rewrite Hab; simpl; apply IH, Hr.
Qed.

Lemma starts_with_spec (r s : list Ascii.ascii) :
  starts_with r s = true -> s = r ++ skipn (length r) s.
Proof.
  revert s; induction r as [|a r IH]; intros [|b s] H; simpl in *; try discriminate; auto.
  apply andb_true_iff in H as [Hab Hr]; apply Ascii.eqb_eq in Hab; subst.
  f_equal; apply IH, Hr.
Qed.

Lemma starts_with_nil (r : list Ascii.ascii) : r <> [] -> starts_with r [] = false.
Proof. destruct r; [contradiction | reflexivity]. Qed.

Lemma index_of_spec (r t : list Ascii.ascii) :
  forall k, index_of r t = Some k ->
  t = firstn k t ++ r ++ skipn (k + length r) t /\ k + length r <= length t.
Proof.
  induction t as [|x t IH]; intros k H; simpl in H.
  - destruct (starts_with r []) eqn:Hs; [|discriminate].
    injection H as <-; destruct r; [|discriminate]; split; reflexivity.
  - destruct (starts_with r (x :: t)) eqn:Hs.
    + injection H as <-; simpl.
      split; [exact (starts_with_spec r _ Hs)|].
      assert (Hlen := f_equal (@length _) (starts_with_spec r _ Hs)).
      rewrite length_app in Hlen; simpl in Hlen; lia.
    + destruct (index_of r t) as [k'|] eqn:Hk; [|discriminate].
      injection H as <-; destruct (IH k' eq_refl) as [He Hle].
      simpl; split; [f_equal; exact He | lia].
Qed.

Lemma index_of_firstn (r t : list Ascii.ascii) :
  r <> [] -> forall k, index_of r t = Some k -> index_of r (firstn k t) = None.
Proof.
  intros Hr; induction t as [|x t IH]; intros k H.
  - rewrite firstn_nil; simpl; rewrite starts_with_nil by exact Hr; reflexivity.
  - simpl in H; destruct (starts_with r (x :: t)) eqn:Hs.
    + injection H as <-; simpl; rewrite starts_with_nil by exact Hr; reflexivity.
    + destruct (index_of r t) as [k'|] eqn:Hk; [|discriminate].
      injection H as <-; simpl.
      destruct (starts_with r (x :: firstn k' t)) eqn:Hs'.
      * apply (starts_with_app _ _ (skipn k' t)) in Hs'.
        simpl in Hs'; rewrite firstn_skipn in Hs'; congruence.
      * rewrite (IH k' eq_refl); reflexivity.
Qed.

Lemma join_units_strings (sep : list Ascii.ascii) (ps : list (list Ascii.ascii)) :
  join_units sep (map (fun u => VStr (string_of_list_ascii u)) ps) = Some (join_list sep ps).
Proof.
  induction ps as [|p ps IH]; [reflexivity|].
  simpl; rewrite code_units_of.
  destruct ps as [|q ps]; [reflexivity|].
  simpl in IH |- *; rewrite IH; reflexivity.
Qed.

Lemma split_loop_cons (fuel : nat) (r t : list Ascii.ascii) :
  exists p ps, split_loop fuel r t = p :: ps.
Proof.
  destruct fuel; simpl; [eauto|].
  destruct (index_of r t); eauto.
Qed.

Lemma split_loop_join (r : list Ascii.ascii) :
  r <> [] -> forall fuel t, length t < fuel -> join_list r (split_loop fuel r t) = t.
Proof.
  intros Hr; induction fuel as [|fuel IH]; intros t Ht; [lia|].
  simpl; destruct (index_of r t) as [k|] eqn:Hk; [|reflexivity].
  destruct (index_of_spec r t k Hk) as [He Hle].
  destruct (split_loop_cons fuel r (skipn (k + length r) t)) as [p [ps Hps]].
  cbv beta iota delta [join_list]; fold join_list; rewrite Hps; rewrite <- Hps.
  rewrite IH; [symmetry; exact He|].
  rewrite length_skipn; destruct r; [contradiction|]; simpl in *; lia.
Qed.

Lemma split_loop_pieces (r : list Ascii.ascii) :
  r <> [] -> forall fuel t, length t < fuel ->
  Forall (fun p => index_of r p = None) (split_loop fuel r t).
Proof.
  intros Hr; induction fuel as [|fuel IH]; intros t Ht; [lia|].
  simpl; destruct (index_of r t) as [k|] eqn:Hk.
  - destruct (index_of_spec r t k Hk) as [_ Hle].
    constructor; [exact (index_of_firstn r t Hr k Hk)|].
    apply IH; rewrite length_skipn; destruct r; [contradiction|]; simpl in *; lia.
  - constructor; [exact Hk | constructor].
Qed.

Lemma split_units_join (s r : list Ascii.ascii) : join_list r (split_units s r) = s.
Proof.
  unfold split_units; destruct r as [|a r].
  - induction s as [|c s IH]; [reflexivity|].
    simpl; destruct s as [|c' s]; [reflexivity|].
    simpl in IH |- *; rewrite IH; reflexivity.
  - destruct s as [|c s]; [reflexivity|].
    apply split_loop_join; [discriminate | simpl; lia].
Qed.

Lemma split_units_pieces (s r : list Ascii.ascii) :
  r <> [] -> Forall (fun p => index_of r p = None) (split_units s r).
Proof.
  intros Hr; unfold split_units; destruct r as [|a r']; [contradiction|].
  destruct s as [|c s].
  - constructor; [simpl; reflexivity | constructor].
  - apply split_loop_pieces; [exact Hr | simpl; lia].
Qed.

(** [join(sep)] after [split(sep)] gives the string back, for every string
    separator (the empty one included); with a non-empty separator no
    piece of the new array contains the separator. *)
Theorem split_join_roundtrip (s separator : String.string) (h : heap) :
  exists h1 ps,
    split_operation separator h (VStr s) = Some (h1, Ok (VRef (next h))) /\
    cells h1 (next h) = Some ps /\
    join_operation (Some separator) h1 (VRef (next h)) = Some (h1, Ok (VStr s)) /\
    (separator <> ""%string ->
     Forall (fun p => exists u, p = VStr u /\ index_of (code_units separator) (code_units u) = None)
            ps).
Proof.
  set (ps := map (fun u => VStr (string_of_list_ascii u))
                 (split_units (code_units s) (code_units separator))).
  exists (snd (alloc h ps)), ps.
  split; [reflexivity|].
  split; [simpl; rewrite Nat.eqb_refl; reflexivity|].
  split.
  - unfold join_operation, array_of; simpl; rewrite Nat.eqb_refl.
    unfold ps; rewrite join_units_strings, split_units_join.
    unfold code_units; rewrite string_of_list_ascii_of_string; reflexivity.
  - intros Hsep.
    assert (Hr : code_units separator <> []).
    { destruct separator; [contradiction | discriminate]. }
    unfold ps; apply Forall_map.
    refine (Forall_impl _ _ (split_units_pieces (code_units s) _ Hr)).
    intros p Hp; exists (string_of_list_ascii p); rewrite code_units_of; split; auto.
Qed.

Lemma split_join_roundtrip_witness :
  exists h1 ps,
    split_operation ","%string heap_3_1 (VStr "a,,b"%string) = Some (h1, Ok (VRef (next heap_3_1))) /\
    cells h1 (next heap_3_1) = Some ps /\
    join_operation (Some ","%string) h1 (VRef (next heap_3_1)) = Some (h1, Ok (VStr "a,,b"%string)) /\
    (","%string <> ""%string ->
     Forall (fun p => exists u, p = VStr u /\ index_of (code_units ","%string) (code_units u) = None)
            ps).
Proof.
  destruct (split_join_roundtrip "a,,b"%string ","%string heap_3_1) as [h1 [ps [H1 [H2 [H3 H4]]]]].
  exists h1, ps; split; [exact H1|]; split; [exact H2|]; split; [exact H3|].
  intros _; apply H4; discriminate.
Defined.

Lemma trim_start_split (s : list Ascii.ascii) :
  exists a, s = a ++ trim_start s /\ forallb is_js_whitespace a = true /\
  match trim_start s with [] => True | c :: _ => is_js_whitespace c = false end.
Proof.
  induction s as [|c s IH]; simpl.
  - exists []; auto.
  - destruct (is_js_whitespace c) eqn:Hc.
    + destruct IH as [a [He [Ha Hh]]]; exists (c :: a); simpl.
      rewrite Hc, Ha; split; [f_equal; exact He | auto].
    + exists []; simpl; auto.
Qed.

Lemma trim_start_id (s : list Ascii.ascii) :
  match s with [] => True | c :: _ => is_js_whitespace c = false end -> trim_start s = s.
Proof. destruct s as [|c s]; simpl; [reflexivity|]; intros ->; reflexivity. Qed.

Lemma trim_start_snoc (l : list Ascii.ascii) (c : Ascii.ascii) :
  is_js_whitespace c = false -> exists v, trim_start (l ++ [c]) = v ++ [c].
Proof.
  intros Hc; induction l as [|x l IH]; simpl.
  - rewrite Hc; exists []; reflexivity.
  - destruct (is_js_whitespace x); [exact IH|].
    exists (x :: l); reflexivity.
Qed.

Lemma trim_units_facts (s : list Ascii.ascii) :
  exists a b, s = a ++ trim_units s ++ b /\
  forallb is_js_whitespace a = true /\ forallb is_js_whitespace b = true /\
  match trim_units s with [] => True | c :: _ => is_js_whitespace c = false end /\
  match rev (trim_units s) with [] => True | c :: _ => is_js_whitespace c = false end.
Proof.
  destruct (trim_start_split s) as [a [Ha [Hwa Hh]]].
  set (u := trim_start s) in *.
  destruct (trim_start_split (rev u)) as [b' [Hb [Hwb Hh']]].
  exists a, (rev b').
  unfold trim_units; fold u.
  split.
  - rewrite Ha at 1; f_equal.
    rewrite <- (rev_involutive u) at 1; rewrite Hb at 1; rewrite rev_app_distr; reflexivity.
  - split; [exact Hwa|]; split.
    + rewrite forallb_forall in Hwb |- *; intros x Hx; apply Hwb, in_rev, Hx.
    + rewrite rev_involutive; split; [|exact Hh'].
      destruct u as [|c w]; [reflexivity|].
      simpl; destruct (trim_start_snoc (rev w) c Hh) as [v Hv]; rewrite Hv.
      rewrite rev_app_distr; exact Hh.
Qed.

(** [trim()] removes exactly the whitespace at both ends: the input is the
    result with whitespace before and after it, the result neither starts
    nor ends with whitespace, and trimming again changes nothing. *)
Theorem trim_strips_ends (s : String.string) :
  exists a b,
    code_units s = a ++ code_units (trim_string s) ++ b /\
    forallb is_js_whitespace a = true /\ forallb is_js_whitespace b = true /\
    match code_units (trim_string s) with [] => True | c :: _ => is_js_whitespace c = false end /\
    match rev (code_units (trim_string s)) with
    | [] => True
    | c :: _ => is_js_whitespace c = false
    end /\
    trim_string (trim_string s) = trim_string s.
Proof.
  unfold trim_string; rewrite code_units_of.
  destruct (trim_units_facts (code_units s)) as [a [b [He [Ha [Hb [Hh Hl]]]]]].
  exists a, b; repeat (split; [assumption|]).
  f_equal; unfold trim_units at 1.
  rewrite (trim_start_id _ Hh).
  rewrite (trim_start_id _ Hl), rev_involutive; reflexivity.
Qed.

(** [clone()] returns a new array with the input's elements, at a new
    address, changing no existing array; a primitive value comes back
    unchanged, with nothing allocated. *)
Theorem clone_copies (h h' : heap) (v : value) (r : outcome) :
  clone_operation h v = Some (h', r) ->
  frame h h' /\
  match v with
  | VRef l => r = Ok (VRef (next h)) /\ cells h' (next h) = cells h l
  | _ => h' = h /\ r = Ok v
  end.
Proof.
  intros Hc; destruct v as [| | | | |l|]; simpl in Hc; try discriminate;
    try (injection Hc as <- <-; split; [apply frame_refl | split; reflexivity]).
  destruct (cells h l) as [xs|] eqn:Hl; [|discriminate].
  injection Hc as <- <-; split; [apply alloc_frame|].
  simpl; rewrite ?Nat.eqb_refl; split; reflexivity.
Qed.

Lemma clone_copies_witness :
  exists h' r, clone_operation heap_3_1 (VRef 0) = Some (h', r) /\
  frame heap_3_1 h' /\ r = Ok (VRef (next heap_3_1)) /\
  cells h' (next heap_3_1) = cells heap_3_1 0.
Proof.
  destruct (clone_operation heap_3_1 (VRef 0)) as [[h' r]|] eqn:E.
  - exists h', r; split; [reflexivity|].
    exact (clone_copies heap_3_1 h' (VRef 0) r E).
  - vm_compute in E; discriminate.
Defined.

End Gluify.
